(** * Flashcards (PS1): the modified-Leitner bucket scheduler

    A shallow embedding of [PS1/src/algorithm.ts] and the properties of its
    six exported functions: [toBucketSets], [getBucketRange], [practice],
    [update], [getHint] and [computeProgress].

    The TypeScript code works on JavaScript objects: a [Map] from bucket
    numbers to [Set]s of flashcards, arrays of such sets, and the sets
    themselves, all of them mutable and passed by reference.  The embedding
    keeps that: sets and maps live in a heap and are named by references,
    and every function is a computation over the heap.

    Bucket numbers are the integers that JavaScript holds as doubles:
    sums round to 53 significant bits, the quotient [averageBucket] is the
    nearest double, and an array has at most 2^32 - 1 elements.  The sizes
    of sets are counted exactly.  A reference that was never allocated
    reads as an empty object; the properties below are about allocated
    maps. *)

From Stdlib Require Import QArith.
From stdpp Require Import gmap strings list.

#[local] Set Warnings "-clear-no-such-hyp".

Open Scope Z_scope.

(** ** JavaScript values *)

(** A JavaScript number, as far as this code can produce one from bucket
    numbers: an integer, [NaN], or the [-Infinity] that [Math.max] gives on
    no arguments.  The carrier is [Z] for bucket numbers and counts and [Q]
    for the quotient [averageBucket]. *)
Inductive number (A : Type) : Type :=
  | Num (a : A)
  | NaN
  | NegInfinity.
Arguments Num {A} a.
Arguments NaN {A}.
Arguments NegInfinity {A}.

(** A key of a [Map<number, _>] at run time: a number or [undefined]. *)
Inductive key : Type :=
  | KNum (n : number Z)
  | KUndefined.

Global Instance number_eq_dec `{EqDecision A} : EqDecision (number A).
Proof. solve_decision. Defined.
Global Instance key_eq_dec : EqDecision key.
Proof. solve_decision. Defined.

(** A bucket number [n] as a map key. *)
Definition bucket (n : Z) : key := KNum (Num n).

(** [ToNumber]: [undefined] converts to [NaN]. *)
Definition ToNumber (k : key) : number Z :=
  match k with
  | KNum n => n
  | KUndefined => NaN
  end.

(** The double nearest to the integer [z]: [z] itself when it has at most
    53 significant bits, and otherwise [z] rounded to 53 significant bits,
    a tie going to the even significand.  The overflow to an infinity at
    2^1024 is left aside: [currentBucket + 1] never reaches it, since
    adding 1 to a double of 2^54 or more gives that double again, and what
    is proved of the sum of bucket numbers is proved for sums up to
    2^53. *)
Definition round_to_double (z : Z) : Z :=
  let a := Z.abs z in
  let e := Z.log2 a - 52 in
  if e <=? 0 then z
  else
    let q := a / 2 ^ e in
    let r := a mod 2 ^ e in
    let half := 2 ^ (e - 1) in
    let q' := if (half <? r) || ((r =? half) && Z.odd q) then q + 1 else q in
    Z.sgn z * (q' * 2 ^ e).

(** [x + y] on integer-valued doubles. *)
Definition double_add (x y : Z) : Z := round_to_double (x + y).

(** [a + b] on numbers. *)
Definition number_add (a b : number Z) : number Z :=
  match a, b with
  | Num x, Num y => Num (double_add x y)
  | NaN, _ | _, NaN => NaN
  | NegInfinity, _ | _, NegInfinity => NegInfinity
  end.

(** [a >= b] for an integer [b]: false on [NaN]. *)
Definition number_ge (a : number Z) (b : Z) : bool :=
  match a with
  | Num x => bool_decide (b ≤ x)
  | NaN | NegInfinity => false
  end.

(** [Math.max(a, b)]: [NaN] is contagious, [-Infinity] is the unit. *)
Definition number_max (a b : number Z) : number Z :=
  match a, b with
  | NaN, _ | _, NaN => NaN
  | NegInfinity, y => y
  | x, NegInfinity => x
  | Num x, Num y => Num (Z.max x y)
  end.

(** [Math.max(...ks)]: every argument goes through [ToNumber]. *)
Definition Math_max (ks : list key) : number Z :=
  foldr (λ k acc, number_max (ToNumber k) acc) NegInfinity ks.

(** [a / b] on integer-valued doubles, for [b > 0]: the double nearest to
    the quotient, as a fraction in lowest terms.  The quotient is scaled by
    a power of two [2^e] so that its integer part [q] has 53 bits, and the
    remainder decides the rounding, a tie going to the even [q].  (The
    exponent range of doubles is left aside: no quotient of a bucket-number
    sum by a count of cards leaves it.) *)
Definition double_div (a b : Z) : Q :=
  if a =? 0 then 0%Q
  else
    let n := Z.abs a in
    let e0 := Z.log2 n - Z.log2 b - 52 in
    let q0 := (n * 2 ^ Z.max 0 (- e0)) / (b * 2 ^ Z.max 0 e0) in
    let e := if q0 <? 2 ^ 52 then e0 - 1 else e0 in
    let num := n * 2 ^ Z.max 0 (- e) in
    let den := b * 2 ^ Z.max 0 e in
    let q := num / den in
    let r := num mod den in
    let q' := if (den <? 2 * r) || ((2 * r =? den) && Z.odd q) then q + 1 else q in
    Qred (Qmake (Z.sgn a * (q' * 2 ^ Z.max 0 e)) (Z.to_pos (2 ^ Z.max 0 (- e)))).

(** [a / b] on numbers, for a positive integer [b]. *)
Definition number_div (a : number Z) (b : Z) : number Q :=
  match a with
  | Num x => Num (double_div x b)
  | NaN => NaN
  | NegInfinity => NegInfinity
  end.

(** ** Flashcards *)

(** Modelled from the spec: the [Flashcard] class of [flashcards.ts], which
    is not part of the sources at hand.  A flashcard has a front, a back, an
    optional hint and tags; [None] stands for a field that is [undefined]
    at run time, which [getHint] guards against for [back] and [hint]. *)
Record Flashcard : Type := {
  front : string;
  back : option string;
  hint : option string;
  tags : list string
}.

(** Bucket sets hold flashcard objects and compare them by reference, so
    the set functions only see a card's identity. *)
Abbreviation Card := positive.

(** Modelled from the spec: the enum [AnswerDifficulty] of [flashcards.ts],
    which is not part of the sources at hand.  [Unrecognized] is any
    run-time value that is none of the three members. *)
Inductive AnswerDifficulty : Type :=
  | Wrong
  | Hard
  | Easy
  | Unrecognized.

(** An entry of the answer history. *)
Record HistoryEntry : Type := {
  h_card : Card;
  h_difficulty : AnswerDifficulty;
  h_timestamp : Z
}.

(** ** getHint *)

(** Truthiness of a string-valued field: [undefined] and [""] are falsy. *)
Definition truthy (v : option string) : bool :=
  match v with
  | Some s => negb (String.length s =? 0)%nat
  | None => false
  end.

(** [v.length], read only after [v] was found truthy. *)
Definition str_length (v : option string) : nat :=
  from_option String.length 0%nat v.

(** [s.charAt(i)]: the one-character string at [i], or [""] out of range. *)
Definition charAt (s : string) (i : nat) : string :=
  match String.get i s with
  | Some c => String c EmptyString
  | None => EmptyString
  end.

Definition getHint (card : Flashcard) : string :=
  if negb (truthy (back card)) || (str_length (back card) =? 0)%nat then ""
  else if negb (truthy (hint card)) || (str_length (hint card) =? 0)%nat then ""
  else charAt (default "" (back card)) 0.

(** ** The heap *)

Abbreviation loc := nat.

(** [sets] holds the [Set<Flashcard>] objects and [maps] the [Map] objects;
    a reference is an index.  The entries of a map are kept in insertion
    order, as [Map.prototype.entries] yields them.  The order in which a
    [Set] yields its members is not observable through these functions, so
    a set is a [gset]. *)
Record Heap : Type := {
  sets : list (gset Card);
  maps : list (list (key * loc))
}.

(** Heap computations. *)
Definition M (A : Type) : Type := Heap → A * Heap.

Definition ret {A} (a : A) : M A := λ h, (a, h).
Definition bind {A B} (c : M A) (k : A → M B) : M B :=
  λ h, let '(a, h') := c h in k a h'.

Notation "'let*' x := c 'in' k" := (bind c (λ x, k))
  (at level 10, x pattern, c at level 100, k at level 200, only parsing).
Notation "c >> k" := (bind c (λ _, k))
  (at level 100, k at level 200, right associativity, only parsing).

(** How a call ends: with a value or with an exception. *)
Inductive Error : Type :=
  | RangeError
  | TypeError.

Inductive Completion (A : Type) : Type :=
  | Normal (a : A)
  | Throw (e : Error).
Arguments Normal {A} a.
Arguments Throw {A} e.

(** *** Set objects *)

(** [new Set(init)] *)
Definition new_Set (init : gset Card) : M loc :=
  λ h, (length (sets h), {| sets := sets h ++ [init]; maps := maps h |}).

(** The members of the set at [s], read from the heap. *)
Definition Set_members (s : loc) : M (gset Card) :=
  λ h, (sets h !!! s, h).

Definition Set_size (s : loc) : M Z :=
  λ h, (Z.of_nat (size (sets h !!! s)), h).

Definition Set_has (s : loc) (c : Card) : M bool :=
  λ h, (bool_decide (c ∈ sets h !!! s), h).

Definition Set_modify (f : gset Card → gset Card) (s : loc) : M unit :=
  λ h, (tt, {| sets := <[s := f (sets h !!! s)]> (sets h); maps := maps h |}).

Definition Set_add (s : loc) (c : Card) : M unit :=
  Set_modify (λ x, x ∪ {[c]}) s.

Definition Set_delete (s : loc) (c : Card) : M unit :=
  Set_modify (λ x, x ∖ {[c]}) s.

(** *** Map objects *)

(** [m.set(k, v)] on the entries: the value of an existing key is replaced
    in place, a new key is appended. *)
Fixpoint entries_set (k : key) (v : loc) (es : list (key * loc)) : list (key * loc) :=
  match es with
  | [] => [(k, v)]
  | (k', v') :: es' =>
      if decide (k' = k) then (k, v) :: es' else (k', v') :: entries_set k v es'
  end.

Fixpoint entries_get (k : key) (es : list (key * loc)) : option loc :=
  match es with
  | [] => None
  | (k', v') :: es' => if decide (k' = k) then Some v' else entries_get k es'
  end.

(** [new Map()] *)
Definition new_Map : M loc :=
  λ h, (length (maps h), {| sets := sets h; maps := maps h ++ [[]] |}).

Definition Map_entries (m : loc) : M (list (key * loc)) :=
  λ h, (maps h !!! m, h).

Definition Map_size (m : loc) : M Z :=
  λ h, (Z.of_nat (length (maps h !!! m)), h).

Definition Map_set (m : loc) (k : key) (v : loc) : M unit :=
  λ h, (tt, {| sets := sets h; maps := <[m := entries_set k v (maps h !!! m)]> (maps h) |}).

(** [m.get(k)]: [None] is [undefined]. *)
Definition Map_get (m : loc) (k : key) : M (option loc) :=
  λ h, (entries_get k (maps h !!! m), h).

Definition Map_has (m : loc) (k : key) : M bool :=
  λ h, (bool_decide (is_Some (entries_get k (maps h !!! m))), h).

(** [for (const x of xs) body] *)
Fixpoint for_of {A} (xs : list A) (body : A → M unit) : M unit :=
  match xs with
  | [] => ret tt
  | x :: xs' => body x >> for_of xs' body
  end.

(** A loop that updates local variables [s]. *)
Fixpoint for_fold {A S} (xs : list A) (body : A → S → M S) (s : S) : M S :=
  match xs with
  | [] => ret s
  | x :: xs' =>
      let* s' := body x s in
      for_fold xs' body s'
  end.

(** A loop whose body may [break]: it returns the new locals and whether
    it broke out. *)
Fixpoint for_break {A S} (xs : list A) (body : A → S → M (S * bool)) (s : S) : M S :=
  match xs with
  | [] => ret s
  | x :: xs' =>
      let* (s', stop) := body x s in
      if stop then ret s' else for_break xs' body s'
  end.

(** The values [0, 1, ..., n-1] of a counting loop. *)
Definition range (n : nat) : list Z := Z.of_nat <$> seq 0 n.

(** *** Arrays of sets *)

(** An [Array<Set<Flashcard>>] by its elements; [None] is a hole, read as
    [undefined].  The arrays of this code are built and returned, never
    shared, so they are passed by value. *)
Abbreviation BucketArray := (list (option loc)).

(** [arr[i]] for an integer [i]. *)
Definition Array_get (arr : BucketArray) (i : Z) : option loc :=
  if bool_decide (0 ≤ i) then mjoin (arr !! Z.to_nat i) else None.

(** [arr[i] = v]: an index past the end extends the array with holes; a
    key that is no array index sets a property and leaves the elements. *)
Definition Array_set (arr : BucketArray) (i : key) (v : loc) : BucketArray :=
  match i with
  | KNum (Num n) =>
      if bool_decide (0 ≤ n) then
        if bool_decide (Z.to_nat n < length arr)%nat then <[Z.to_nat n := Some v]> arr
        else arr ++ replicate (Z.to_nat n - length arr) None ++ [Some v]
      else arr
  | _ => arr
  end.

(** ** toBucketSets *)

(** [new Array(length)] throws a [RangeError] unless [length] is an
    integer from 0 to 2^32 - 1.  The counting loop runs [i] from 0 while
    [i <= maxBucket]. *)
Definition toBucketSets (buckets : loc) : M (Completion BucketArray) :=
  let* size := Map_size buckets in
  if size =? 0 then ret (Normal [])
  else
    let* es := Map_entries buckets in
    match Math_max es.*1 with
    | Num maxBucket =>
        let length := double_add maxBucket 1 in
        if (length <? 0) || (4294967295 <? length) then ret (Throw RangeError)
        else
          let result : BucketArray := replicate (Z.to_nat length) None in
          let* result :=
            for_fold (range (Z.to_nat (maxBucket + 1)))
              (λ i result,
                 let* s := new_Set ∅ in
                 ret (Array_set result (bucket i) s))
              result in
          let* result :=
            for_fold es
              (λ '(bucketNum, cardSet) result,
                 ret (Array_set result bucketNum cardSet))
              result in
          ret (Normal result)
    | NaN | NegInfinity => ret (Throw RangeError)
    end.

(** ** getBucketRange *)

Record BucketRange : Type := {
  minBucket : Z;
  maxBucket : Z
}.

Definition getBucketRange (buckets : BucketArray) : M (option BucketRange) :=
  let* (minBucket, maxBucket) :=
    for_fold (range (length buckets))
      (λ i '(minBucket, maxBucket),
         match Array_get buckets i with
         | Some bucket =>
             let* n := Set_size bucket in
             if 0 <? n then ret (if minBucket =? -1 then i else minBucket, i)
             else ret (minBucket, maxBucket)
         | None => ret (minBucket, maxBucket)
         end)
      (-1, -1) in
  if minBucket =? -1 then ret None
  else ret (Some {| minBucket := minBucket; maxBucket := maxBucket |}).

(** ** practice *)

(** [for (const card of bucket) result.add(card)]; [result] is a new set,
    so the members of [bucket] are those at the start of the loop. *)
Definition add_all (bucket : option loc) (result : loc) : M unit :=
  match bucket with
  | Some bucket =>
      let* cards := Set_members bucket in
      for_of (elements cards) (λ card, Set_add result card)
  | None => ret tt
  end.

Definition practice (buckets : BucketArray) (day : Z) : M loc :=
  let* result := new_Set ∅ in
  if day =? 0 then
    add_all (Array_get buckets 0) result >>
    ret result
  else
    (if day <? Z.of_nat (length buckets) then add_all (Array_get buckets day) result
     else ret tt) >>
    ret result.

(** ** update *)

(** Both loops run over the entries of a map that their bodies leave as it
    is (the first fills another map, the second changes a set and breaks),
    so the entries are read once, before the loop. *)
Definition update (buckets : loc) (card : Card) (difficulty : AnswerDifficulty)
    : M (Completion loc) :=
  let* newBuckets := new_Map in
  let* es := Map_entries buckets in
  for_of es
    (λ '(bucketNum, cardSet),
       let* cards := Set_members cardSet in
       let* copy := new_Set cards in
       Map_set newBuckets bucketNum copy) >>
  let* es' := Map_entries newBuckets in
  let* currentBucket :=
    for_break es'
      (λ '(bucketNum, cardSet) currentBucket,
         let* found := Set_has cardSet card in
         if found then Set_delete cardSet card >> ret (bucketNum, true)
         else ret (currentBucket, false))
      (bucket (-1)) in
  let newBucket :=
    match difficulty with
    | Wrong => bucket 0
    | Hard => if decide (currentBucket = bucket (-1)) then bucket 0 else currentBucket
    | Easy =>
        if decide (currentBucket = bucket (-1)) then bucket 0
        else KNum (number_add (ToNumber currentBucket) (Num 1))
    | Unrecognized => KUndefined
    end in
  let* present := Map_has newBuckets newBucket in
  (if negb present then
     let* s := new_Set ∅ in
     Map_set newBuckets newBucket s
   else ret tt) >>
  let* dest := Map_get newBuckets newBucket in
  match dest with
  | Some s => Set_add s card >> ret (Normal newBuckets)
  | None => ret (Throw TypeError)
  end.

(** ** computeProgress *)

Record Progress : Type := {
  totalCards : Z;
  masteredCards : Z;
  strugglingCards : Z;
  averageBucket : number Q
}.

(** [v || 0] for an optional count [v]. *)
Definition or_zero (v : option Z) : Z :=
  match v with
  | Some n => if n =? 0 then 0 else n
  | None => 0
  end.

Definition computeProgress (buckets : loc) (history : list HistoryEntry) : M Progress :=
  let* es := Map_entries buckets in
  let* (totalCards, totalBucketSum) :=
    for_fold es.*2
      (λ cardSet '(totalCards, totalBucketSum),
         let* n := Set_size cardSet in
         let* cards := Set_members cardSet in
         let* totalBucketSum :=
           for_fold (elements cards)
             (λ card totalBucketSum,
                for_break es
                  (λ '(bucketNum, set) totalBucketSum,
                     let* found := Set_has set card in
                     if found then
                       ret (number_add totalBucketSum (ToNumber bucketNum), true)
                     else ret (totalBucketSum, false))
                  totalBucketSum)
             totalBucketSum in
         ret (totalCards + n, totalBucketSum))
      (0, Num 0) in
  let* masteredCards :=
    for_fold es
      (λ '(bucketNum, cardSet) masteredCards,
         if number_ge (ToNumber bucketNum) 2 then
           let* n := Set_size cardSet in
           ret (masteredCards + n)
         else ret masteredCards)
      0 in
  let* bucket0 := Map_get buckets (bucket 0) in
  let* size0 :=
    match bucket0 with
    | Some s => let* n := Set_size s in ret (Some n)
    | None => ret None
    end in
  let strugglingCards := or_zero size0 in
  let averageBucket :=
    if 0 <? totalCards then number_div totalBucketSum totalCards else Num 0%Q in
  ret {| totalCards := totalCards;
         masteredCards := masteredCards;
         strugglingCards := strugglingCards;
         averageBucket := averageBucket |}.

(** ** Test fixtures *)

Module Examples.

Definition empty_heap : Heap := {| sets := []; maps := [] |}.

Definition cardA : Card := 5%positive.

(** The map [{0: {}, 1: {cardA}}], at reference 0. *)
Definition scenario : Heap :=
  {| sets := [∅; {[cardA]}];
     maps := [[(bucket 0, 0%nat); (bucket 1, 1%nat)]] |}.

(** The map [{0: {cardA}, 1: {}}], at reference 0: what a Wrong answer
    for [cardA] makes of [scenario]. *)
Definition after_wrong : Heap :=
  {| sets := [{[cardA]}; ∅];
     maps := [[(bucket 0, 0%nat); (bucket 1, 1%nat)]] |}.

(** The map [{0: {c1}, 1: {c2}, 2: {c3}}], at reference 0. *)
Definition three_cards : Heap :=
  {| sets := [{[1%positive]}; {[2%positive]}; {[3%positive]}];
     maps := [[(bucket 0, 0%nat); (bucket 1, 1%nat); (bucket 2, 2%nat)]] |}.

(** The map [{9007199254740992: {cardA}}], at reference 0: a card in
    bucket 2^53. *)
Definition at_limit : Heap :=
  {| sets := [{[cardA]}];
     maps := [[(bucket 9007199254740992, 0%nat)]] |}.

(** The map [{4294967295: {cardA}}], at reference 0: a card in bucket
    2^32 - 1. *)
Definition beyond_array : Heap :=
  {| sets := [{[cardA]}];
     maps := [[(bucket 4294967295, 0%nat)]] |}.

(** The map [{9007199254740992: {c1}, 1: {c2, c3}}], at reference 0. *)
Definition big_sum : Heap :=
  {| sets := [{[1%positive]}; {[2%positive; 3%positive]}];
     maps := [[(bucket 9007199254740992, 0%nat); (bucket 1, 1%nat)]] |}.

(** Builds [new Map([[k1, new Set(s1)], ...])]. *)
Definition build (bs : list (Z * list Card)) : M loc :=
  let* m := new_Map in
  for_of bs
    (λ '(k, cs),
       let* s := new_Set (list_to_set cs) in
       Map_set m (bucket k) s) >>
  ret m.

(** What a map holds: its keys with the members of their sets. *)
Definition show (m : loc) (h : Heap) : list (key * list Card) :=
  (λ '(k, s), (k, elements (sets h !!! s))) <$> (maps h !!! m).

Definition show_array (a : BucketArray) (h : Heap) : list (option (list Card)) :=
  (λ o : option loc, (λ s, elements (sets h !!! s)) <$> o) <$> a.

End Examples.

(** ** Reading a computation *)

(** The value a computation returns from heap [h]. *)
Definition eval {A} (c : M A) (h : Heap) : A := (c h).1.

(** The members of the set an array holds at index [i]; a hole or an index
    out of range holds no cards. *)
Definition bucket_members (h : Heap) (B : BucketArray) (i : nat) : gset Card :=
  match B !! i with
  | Some (Some s) => sets h !!! s
  | _ => ∅
  end.

(** ** Bucket maps *)

(** A bucket number is a non-negative integer. *)
Definition is_bucket_number (k : key) : Prop :=
  match k with
  | KNum (Num n) => 0 ≤ n
  | _ => False
  end.

Global Instance is_bucket_number_dec k : Decision (is_bucket_number k).
Proof. destruct k as [[n| |]|]; cbn; apply _. Defined.

(** The map object at [S] is a bucket map: it is allocated, its keys are
    bucket numbers, each once (a [Map] holds a key once), and its values
    are allocated sets. *)
Definition BucketMap (h : Heap) (S : loc) : Prop :=
  (S < length (maps h))%nat ∧
  NoDup (maps h !!! S).*1 ∧
  Forall is_bucket_number (maps h !!! S).*1 ∧
  Forall (λ s, (s < length (sets h))%nat) (maps h !!! S).*2.

Global Instance BucketMap_dec h S : Decision (BucketMap h S).
Proof. unfold BucketMap. apply _. Defined.

(** The set filed under key [k] in the map at [S]; an absent key is an
    empty bucket. *)
Definition members (h : Heap) (S : loc) (k : key) : gset Card :=
  from_option (λ s, sets h !!! s) ∅ (entries_get k (maps h !!! S)).

(** The indices of an array whose sets have cards, in increasing order. *)
Definition occupied (h : Heap) (B : BucketArray) : list nat :=
  filter (λ i, bucket_members h B i ≠ ∅) (seq 0 (length B)).

(** The length that the dense-form invariant of the data model asks of an
    array: the largest occupied index plus one, and 0 when no set has
    cards. *)
Definition occupied_length (h : Heap) (B : BucketArray) : nat :=
  from_option S 0%nat (last (occupied h B)).

(** The bucket numbers of the map at [S] whose sets have cards. *)
Definition occupied_keys (h : Heap) (S : loc) : list Z :=
  omap (λ '(k, s),
          match k with
          | KNum (Num n) => if decide (sets h !!! s ≠ ∅) then Some n else None
          | _ => None
          end)
       (maps h !!! S).

(** The smallest and the largest of a list of bucket numbers. *)
Definition key_range (ks : list Z) : option BucketRange :=
  match ks with
  | [] => None
  | k :: ks' => Some {| minBucket := foldr Z.min k ks'; maxBucket := foldr Z.max k ks' |}
  end.

(** The map at [S] by value: its keys with the members of their sets, in
    insertion order. *)
Definition contents (h : Heap) (S : loc) : list (key * gset Card) :=
  (λ e, (e.1, sets h !!! e.2)) <$> maps h !!! S.

(** The invariant of the sparse form: a flashcard is in at most one bucket,
    so the sets of any two entries share no card. *)
Fixpoint one_bucket_per_card (bs : list (key * gset Card)) : Prop :=
  match bs with
  | [] => True
  | b :: bs' => Forall (λ b', b.2 ## b'.2) bs' ∧ one_bucket_per_card bs'
  end.

Global Instance one_bucket_per_card_dec bs : Decision (one_bucket_per_card bs).
Proof. induction bs; cbn; apply _. Defined.

(** The integer of a bucket number. *)
Definition key_number (k : key) : Z :=
  match k with
  | KNum (Num n) => n
  | _ => 0
  end.

(** Every key of the map at [S] is below [bound]. *)
Definition keys_below (bound : Z) (h : Heap) (S : loc) : Prop :=
  Forall (λ k, key_number k < bound) (maps h !!! S).*1.

Global Instance keys_below_dec bound h S : Decision (keys_below bound h S).
Proof. unfold keys_below. apply _. Defined.

(** The statistics as the specification words them. *)

(** The sum of the sizes of all bucket sets. *)
Definition total_cards (bs : list (key * gset Card)) : Z :=
  foldr (λ b acc, Z.of_nat (size b.2) + acc) 0 bs.

(** The sum of the sizes of the buckets whose number is at least 2. *)
Definition mastered_cards (bs : list (key * gset Card)) : Z :=
  foldr (λ b acc, if decide (2 ≤ key_number b.1) then Z.of_nat (size b.2) + acc else acc)
        0 bs.

(** The sum over all cards of their bucket number. *)
Definition bucket_number_sum (bs : list (key * gset Card)) : Z :=
  foldr (λ b acc, key_number b.1 * Z.of_nat (size b.2) + acc) 0 bs.

(** The key of the first entry whose set holds [card]. *)
Fixpoint first_bucket (h : Heap) (es : list (key * loc)) (card : Card) : option key :=
  match es with
  | [] => None
  | (k, s) :: es' => if decide (card ∈ sets h !!! s) then Some k else first_bucket h es' card
  end.

(** *** update, by value

    What the three phases of [update] after the copy do to the buckets of
    the new map, read as values. *)

(** The search loop: the first bucket that holds [card] loses it, and its
    key becomes [currentBucket]. *)
Fixpoint remove_first (card : Card) (currentBucket : key) (bs : list (key * gset Card))
    : key * list (key * gset Card) :=
  match bs with
  | [] => (currentBucket, [])
  | (k, X) :: bs' =>
      if decide (card ∈ X) then (k, (k, X ∖ {[card]}) :: bs')
      else let r := remove_first card currentBucket bs' in (r.1, (k, X) :: r.2)
  end.

(** The [switch] on the difficulty. *)
Definition destination (difficulty : AnswerDifficulty) (currentBucket : key) : key :=
  match difficulty with
  | Wrong => bucket 0
  | Hard => if decide (currentBucket = bucket (-1)) then bucket 0 else currentBucket
  | Easy =>
      if decide (currentBucket = bucket (-1)) then bucket 0
      else KNum (number_add (ToNumber currentBucket) (Num 1))
  | Unrecognized => KUndefined
  end.

(** The last phase: [card] joins the bucket [k], which is created empty at
    the end if the map has no such key. *)
Fixpoint file_card (card : Card) (k : key) (bs : list (key * gset Card))
    : list (key * gset Card) :=
  match bs with
  | [] => [(k, ∅ ∪ {[card]})]
  | (k', X) :: bs' =>
      if decide (k' = k) then (k', X ∪ {[card]}) :: bs' else (k', X) :: file_card card k bs'
  end.

Definition updated (card : Card) (difficulty : AnswerDifficulty) (bs : list (key * gset Card))
    : list (key * gset Card) :=
  let r := remove_first card (bucket (-1)) bs in
  file_card card (destination difficulty r.1) r.2.

(** The set of the first entry with key [k]. *)
Fixpoint bucket_of (k : key) (bs : list (key * gset Card)) : option (gset Card) :=
  match bs with
  | [] => None
  | (k', X) :: bs' => if decide (k' = k) then Some X else bucket_of k bs'
  end.

(** The bucket number that the three outcomes send a card to, given the
    number of the bucket it was in, if any. *)
Definition destination_number (difficulty : AnswerDifficulty) (prior : option Z) : Z :=
  match difficulty, prior with
  | Hard, Some n => n
  | Easy, Some n => n + 1
  | _, _ => 0
  end.

(** * Properties *)

(** ** Doubles *)

(** Integers up to 2^53 are doubles: rounding leaves them as they are. *)
Lemma round_to_double_exact z :
  Z.abs z ≤ 9007199254740992 → round_to_double z = z.
Proof.
  intros Hz. destruct (decide (Z.abs z = 9007199254740992)) as [Heq|Hne].
  - assert (z = 9007199254740992 ∨ z = -9007199254740992) as [->| ->] by lia;
      vm_compute; reflexivity.
  - unfold round_to_double. cbv zeta.
    assert (Z.log2 (Z.abs z) < 53) as Hlog.
    { destruct (decide (Z.abs z = 0)) as [->|Hz0]; [done|].
      apply Z.log2_lt_pow2; [lia|]. change (2 ^ 53) with 9007199254740992. lia. }
    destruct (Z.leb_spec (Z.log2 (Z.abs z) - 52) 0); [done|lia].
Qed.

Lemma double_add_exact x y :
  Z.abs (x + y) ≤ 9007199254740992 → double_add x y = x + y.
Proof. apply round_to_double_exact. Qed.

(** Rounding is monotone, and the integers from 0 to 2^53 are doubles:
    rounding a number that is at least such an integer keeps it so. *)
Lemma round_to_double_lower (c z : Z) :
  0 ≤ c ≤ 9007199254740992 → c ≤ z → c ≤ round_to_double z.
Proof.
  intros Hc Hz. unfold round_to_double. cbv zeta.
  destruct (Z.leb_spec (Z.log2 (Z.abs z) - 52) 0) as [|He]; [done|].
  assert (0 < z) as Hpos.
  { destruct (decide (0 < z)); [done|]. assert (z = 0) as -> by lia.
    by vm_compute in He. }
  rewrite Z.abs_eq, Z.sgn_pos, Z.mul_1_l by lia. rewrite Z.abs_eq in He by lia.
  set (e := Z.log2 z - 52) in *.
  assert (2 ^ 52 * 2 ^ e ≤ z) as Hle.
  { rewrite <-Z.pow_add_r by lia. replace (52 + e) with (Z.log2 z) by lia.
    apply Z.log2_spec. lia. }
  assert (2 ≤ 2 ^ e) as Hpow.
  { change 2 with (2 ^ 1) at 1. apply Z.pow_le_mono_r; lia. }
  assert (2 ^ 52 ≤ z / 2 ^ e) as Hq.
  { apply Z.div_le_lower_bound; lia. }
  change (2 ^ 52) with 4503599627370496 in *.
  destruct (_ || _); nia.
Qed.

(** A double is within half a unit in the last place of what it rounds:
    past 53 bits, [round_to_double z] is a multiple of the unit [2^e] of
    [z], and no farther than [2^e / 2] from [z]. *)
Lemma round_to_double_nearest (z : Z) :
  let e := Z.log2 (Z.abs z) - 52 in
  0 < e →
  (2 ^ e | round_to_double z) ∧ 2 * Z.abs (round_to_double z - z) ≤ 2 ^ e.
Proof.
  intros e He. unfold round_to_double. cbv zeta. fold e.
  destruct (Z.leb_spec e 0) as [|_]; [lia|].
  assert (HP : 0 < 2 ^ (e - 1)) by (apply Z.pow_pos_nonneg; lia).
  assert (Hhalf : 2 ^ e = 2 * 2 ^ (e - 1)).
  { rewrite <-Z.pow_succ_r by lia. f_equal. lia. }
  pose proof (Z.div_mod (Z.abs z) (2 ^ e) ltac:(lia)) as Hdm.
  pose proof (Z.mod_pos_bound (Z.abs z) (2 ^ e) ltac:(lia)) as Hr.
  set (q := Z.abs z / 2 ^ e) in *. set (r := Z.abs z mod 2 ^ e) in *.
  set (half := 2 ^ (e - 1)) in *.
  split.
  - rewrite Z.mul_assoc. apply Z.divide_factor_r.
  - destruct (_ || _) eqn:Hround.
    + assert (half ≤ r).
      { apply orb_true_iff in Hround as [?%Z.ltb_lt|[?%Z.eqb_eq _]%andb_true_iff]; lia. }
      destruct (Z.abs_spec z) as [[? Habs]|[? Habs]]; rewrite Habs in *.
      * destruct (decide (z = 0)) as [->|]; [cbn in *; lia|].
        rewrite Z.sgn_pos by lia. nia.
      * rewrite Z.sgn_neg by lia. nia.
    + assert (r ≤ half).
      { apply orb_false_iff in Hround as [?%Z.ltb_ge _]. lia. }
      destruct (Z.abs_spec z) as [[? Habs]|[? Habs]]; rewrite Habs in *.
      * destruct (decide (z = 0)) as [->|]; [cbn in *; lia|].
        rewrite Z.sgn_pos by lia. nia.
      * rewrite Z.sgn_neg by lia. nia.
Qed.

Example round_to_double_ties :
  round_to_double (9007199254740992 + 1) = 9007199254740992 ∧
  round_to_double (9007199254740992 + 3) = 9007199254740992 + 4 ∧
  double_add 9007199254740992 1 = 9007199254740992.
Proof. by vm_compute. Qed.

(** The double of a quotient lies between two integers that the quotient
    lies between: rounding is monotone, and integers up to 2^53 are
    doubles. *)
Lemma double_div_bounds (a b lo hi : Z) :
  0 ≤ a ≤ 9007199254740992 → 0 < b → 0 ≤ lo →
  lo * b ≤ a ≤ hi * b →
  (inject_Z lo <= double_div a b)%Q ∧ (double_div a b <= inject_Z hi)%Q.
Proof.
  intros Ha Hb Hlo Hab.
  destruct (decide (a = 9007199254740992 ∧ b = 1)) as [[-> ->]|Hnot].
  { replace (double_div 9007199254740992 1) with (inject_Z 9007199254740992)
      by (vm_compute; reflexivity).
    unfold Qle. cbn. lia. }
  unfold double_div. destruct (Z.eqb_spec a 0) as [->|Ha0].
  { unfold Qle. cbn. nia. }
  cbv zeta. rewrite !Z.abs_eq, Z.sgn_pos by lia.
  set (e0 := Z.log2 a - Z.log2 b - 52).
  set (e := if _ <? 2 ^ 52 then e0 - 1 else e0).
  assert (He : e ≤ 0).
  { assert (e ≤ e0) by (unfold e; case_match; lia).
    assert (e0 ≤ 0); [|lia]. unfold e0.
    pose proof (Z.log2_le_mono a 9007199254740992 ltac:(lia)) as Hlog.
    change (Z.log2 9007199254740992) with 53 in Hlog.
    pose proof (Z.log2_nonneg b).
    destruct (decide (Z.log2 a = 53 ∧ Z.log2 b = 0)) as [[Hla Hlb]|]; [|lia].
    destruct Hnot. pose proof (Z.log2_spec a ltac:(lia)) as Hsa.
    pose proof (Z.log2_spec b Hb) as Hsb. rewrite Hla in Hsa. rewrite Hlb in Hsb.
    change (2 ^ 53) with 9007199254740992 in Hsa. change (2 ^ Z.succ 0) with 2 in Hsb. lia. }
  rewrite !Qred_correct.
  rewrite (Z.max_l 0 e), (Z.max_r 0 (- e)) by lia.
  change (2 ^ 0) with 1. rewrite !Z.mul_1_r, !Z.mul_1_l.
  set (P := 2 ^ (- e)). assert (HP : 0 < P) by (apply Z.pow_pos_nonneg; lia).
  pose proof (Z.div_mod (a * P) b ltac:(lia)) as Hdm.
  pose proof (Z.mod_pos_bound (a * P) b Hb) as Hr.
  set (q := a * P / b) in *. set (r := (a * P) mod b) in *.
  assert (Hq1 : lo * P ≤ q) by nia.
  assert (Hq2 : q ≤ hi * P) by nia.
  unfold Qle. cbn [Qnum Qden inject_Z]. rewrite Z2Pos.id, !Z.mul_1_r by done.
  destruct (_ || _) eqn:Hround; [|lia].
  split; [lia|].
  assert (0 < r); [|nia].
  apply orb_true_iff in Hround as [?%Z.ltb_lt|[?%Z.eqb_eq _]%andb_true_iff]; lia.
Qed.

(** The scaling of a quotient by [2^(-e)], on numerator and denominator. *)
Lemma scale_step (e : Z) :
  0 < 2 ^ Z.max 0 (- e) ∧ 0 < 2 ^ Z.max 0 e ∧
  2 ^ Z.max 0 (- (e - 1)) * 2 ^ Z.max 0 e =
    2 * (2 ^ Z.max 0 (- e) * 2 ^ Z.max 0 (e - 1)).
Proof.
  split; [apply Z.pow_pos_nonneg; lia|]. split; [apply Z.pow_pos_nonneg; lia|].
  destruct (Z_le_gt_dec e 0).
  - rewrite (Z.max_l 0 e), (Z.max_l 0 (e - 1)), !Z.max_r by lia.
    replace (- (e - 1)) with (Z.succ (- e)) by lia. rewrite Z.pow_succ_r by lia.
    change (2 ^ 0) with 1. lia.
  - rewrite (Z.max_r 0 e), (Z.max_r 0 (e - 1)), !Z.max_l by lia.
    replace e with (Z.succ (e - 1)) at 1 by lia. rewrite Z.pow_succ_r by lia.
    change (2 ^ 0) with 1. lia.
Qed.

Lemma scale_log2 (a b : Z) :
  0 < a → 0 < b →
  let e0 := Z.log2 a - Z.log2 b - 52 in
  2 ^ 51 * (b * 2 ^ Z.max 0 e0) < a * 2 ^ Z.max 0 (- e0) < 2 ^ 53 * (b * 2 ^ Z.max 0 e0).
Proof.
  intros Ha Hb e0.
  pose proof (Z.log2_spec a Ha) as HA. pose proof (Z.log2_spec b Hb) as HB.
  pose proof (Z.log2_nonneg a). pose proof (Z.log2_nonneg b).
  rewrite !Z.pow_succ_r in * by done.
  assert (0 < 2 ^ Z.log2 b) by (apply Z.pow_pos_nonneg; lia).
  destruct (Z_le_gt_dec e0 0).
  - rewrite (Z.max_l 0 e0), Z.max_r by lia. change (2 ^ 0) with 1.
    assert (0 < 2 ^ (- e0)) by (apply Z.pow_pos_nonneg; lia).
    assert (2 ^ Z.log2 a * 2 ^ (- e0) = 2 ^ 52 * 2 ^ Z.log2 b) as Heq.
    { rewrite <-!Z.pow_add_r by lia. f_equal. lia. }
    change (2 ^ 51) with 2251799813685248. change (2 ^ 53) with 9007199254740992.
    change (2 ^ 52) with 4503599627370496 in Heq. nia.
  - rewrite (Z.max_r 0 e0), Z.max_l by lia. change (2 ^ 0) with 1.
    assert (0 < 2 ^ e0) by (apply Z.pow_pos_nonneg; lia).
    assert (2 ^ Z.log2 a = 2 ^ 52 * (2 ^ Z.log2 b * 2 ^ e0)) as Heq.
    { rewrite <-!Z.pow_add_r by lia. f_equal. lia. }
    change (2 ^ 51) with 2251799813685248. change (2 ^ 53) with 9007199254740992.
    change (2 ^ 52) with 4503599627370496 in Heq. nia.
Qed.

(** [double_div a b] is the quotient correctly rounded: it is [m * 2^e] for
    a significand [m] of 53 bits (or 2^53, when the rounding carries), and
    it is no farther from [a / b] than half the unit [2^e]; on a tie [m]
    is even. *)
Lemma double_div_nearest (a b : Z) :
  0 < a → 0 < b →
  ∃ (m e : Z),
    2 ^ 52 ≤ m ≤ 2 ^ 53 ∧
    (double_div a b == (m * 2 ^ Z.max 0 e) # Z.to_pos (2 ^ Z.max 0 (- e)))%Q ∧
    2 * Z.abs (a * 2 ^ Z.max 0 (- e) - m * (b * 2 ^ Z.max 0 e)) ≤ b * 2 ^ Z.max 0 e ∧
    (2 * Z.abs (a * 2 ^ Z.max 0 (- e) - m * (b * 2 ^ Z.max 0 e)) = b * 2 ^ Z.max 0 e →
     Z.even m).
Proof.
  intros Ha Hb. unfold double_div.
  rewrite (proj2 (Z.eqb_neq a 0)) by lia. cbv zeta. rewrite !Z.abs_eq, Z.sgn_pos by lia.
  pose proof (scale_log2 a b Ha Hb) as Hscale. cbv zeta in Hscale.
  set (e0 := Z.log2 a - Z.log2 b - 52) in *.
  set (e := if _ <? 2 ^ 52 then e0 - 1 else e0).
  assert (Hnum : 2 ^ 52 * (b * 2 ^ Z.max 0 e) ≤ a * 2 ^ Z.max 0 (- e)
                 < 2 ^ 53 * (b * 2 ^ Z.max 0 e)).
  { destruct (scale_step e0) as (HP0 & HD0 & Hstep). unfold e.
    change (2 ^ 51) with 2251799813685248 in *. change (2 ^ 53) with 9007199254740992 in *.
    change (2 ^ 52) with 4503599627370496 in *.
    pose proof (Z.div_mod (a * 2 ^ Z.max 0 (- e0)) (b * 2 ^ Z.max 0 e0) ltac:(lia)) as Hdm0.
    pose proof (Z.mod_pos_bound (a * 2 ^ Z.max 0 (- e0)) (b * 2 ^ Z.max 0 e0) ltac:(lia))
      as Hr0.
    destruct (Z.ltb_spec (a * 2 ^ Z.max 0 (- e0) / (b * 2 ^ Z.max 0 e0)) 4503599627370496)
      as [Hq0|Hq0].
    - assert (a * 2 ^ Z.max 0 (- e0) < 4503599627370496 * (b * 2 ^ Z.max 0 e0)) by nia.
      clear Hdm0 Hr0 Hq0.
      destruct (scale_step (e0 - 1)) as (HP & HD & _).
      destruct (Z_le_gt_dec e0 0).
      + rewrite (Z.max_l 0 e0), (Z.max_l 0 (e0 - 1)) in * by lia.
        change (2 ^ 0) with 1 in *. nia.
      + rewrite (Z.max_l 0 (- e0)), (Z.max_l 0 (- (e0 - 1))) in * by lia.
        change (2 ^ 0) with 1 in *. nia.
    - split; [nia|lia]. }
  destruct (scale_step e) as (HP & HD & _).
  set (P := 2 ^ Z.max 0 (- e)) in *. set (D := 2 ^ Z.max 0 e) in *.
  pose proof (Z.div_mod (a * P) (b * D) ltac:(lia)) as Hdm.
  pose proof (Z.mod_pos_bound (a * P) (b * D) ltac:(lia)) as Hr.
  set (q := a * P / (b * D)) in *. set (r := (a * P) mod (b * D)) in *.
  change (2 ^ 53) with 9007199254740992 in *. change (2 ^ 52) with 4503599627370496 in *.
  assert (Hq : 4503599627370496 ≤ q < 9007199254740992) by nia.
  eexists _, e. split; [|split; [|split]].
  2:{ rewrite Qred_correct, Z.mul_1_l. reflexivity. }
  - destruct (_ || _); lia.
  - fold P D. destruct (_ || _) eqn:Hround.
    + assert (b * D ≤ 2 * r).
      { apply orb_true_iff in Hround as [?%Z.ltb_lt|[?%Z.eqb_eq _]%andb_true_iff]; lia. }
      lia.
    + apply orb_false_iff in Hround as [?%Z.ltb_ge _]. lia.
  - fold P D. destruct (_ || _) eqn:Hround.
    + apply orb_true_iff in Hround as [Hlt%Z.ltb_lt|[Heq%Z.eqb_eq Hodd]%andb_true_iff].
      * lia.
      * intros _. rewrite Z.even_add. rewrite <-Z.negb_odd, Hodd. done.
    + apply orb_false_iff in Hround as [Hge%Z.ltb_ge Htie]. intros Heq.
      assert (2 * r = b * D) as Heq' by lia.
      apply Z.eqb_eq in Heq'. rewrite Heq' in Htie. cbn in Htie.
      by rewrite <-Z.negb_odd, Htie.
Qed.

(** 1/3 is the double 0.3333333333333333, 6004799503160661 / 2^54; 1/2 and
    3/3 are exact. *)
Example double_div_thirds :
  double_div 1 3 = (6004799503160661 # 18014398509481984)%Q ∧
  double_div 1 2 = (1 # 2)%Q ∧
  double_div 3 3 = 1%Q.
Proof. by vm_compute. Qed.

(** ** The heap primitives *)

Lemma bind_run {A B} (c : M A) (k : A → M B) h : bind c k h = k (c h).1 (c h).2.
Proof. unfold bind. by destruct (c h). Qed.

Lemma ret_run {A} (a : A) h : ret a h = (a, h).
Proof. done. Qed.

Lemma new_Set_run init h :
  new_Set init h = (length (sets h), {| sets := sets h ++ [init]; maps := maps h |}).
Proof. done. Qed.

Lemma new_Map_run h :
  new_Map h = (length (maps h), {| sets := sets h; maps := maps h ++ [[]] |}).
Proof. done. Qed.

Lemma Set_members_run s h : Set_members s h = (sets h !!! s, h).
Proof. done. Qed.

Lemma Set_size_run s h : Set_size s h = (Z.of_nat (size (sets h !!! s)), h).
Proof. done. Qed.

Lemma Set_has_run s c h : Set_has s c h = (bool_decide (c ∈ sets h !!! s), h).
Proof. done. Qed.

Lemma Set_add_run s c h :
  Set_add s c h = (tt, {| sets := <[s := sets h !!! s ∪ {[c]}]> (sets h); maps := maps h |}).
Proof. done. Qed.

Lemma Set_delete_run s c h :
  Set_delete s c h = (tt, {| sets := <[s := sets h !!! s ∖ {[c]}]> (sets h); maps := maps h |}).
Proof. done. Qed.

Lemma Map_entries_run m h : Map_entries m h = (maps h !!! m, h).
Proof. done. Qed.

Lemma Map_size_run m h : Map_size m h = (Z.of_nat (length (maps h !!! m)), h).
Proof. done. Qed.

Lemma Map_set_run m k v h :
  Map_set m k v h =
  (tt, {| sets := sets h; maps := <[m := entries_set k v (maps h !!! m)]> (maps h) |}).
Proof. done. Qed.

Lemma Map_get_run m k h : Map_get m k h = (entries_get k (maps h !!! m), h).
Proof. done. Qed.

Lemma Map_has_run m k h :
  Map_has m k h = (bool_decide (is_Some (entries_get k (maps h !!! m))), h).
Proof. done. Qed.

(** One step of symbolic execution: run the primitives that are applied to
    a heap. *)
Ltac run :=
  repeat progress
    (rewrite ?bind_run, ?ret_run, ?new_Set_run, ?new_Map_run, ?Set_members_run,
       ?Set_size_run, ?Set_has_run, ?Set_add_run, ?Set_delete_run,
       ?Map_entries_run, ?Map_size_run, ?Map_set_run, ?Map_get_run, ?Map_has_run;
     cbn [fst snd sets maps]).

Lemma Set_add_all r cs h :
  for_of cs (λ c, Set_add r c) h =
  (tt, {| sets := <[r := sets h !!! r ∪ list_to_set cs]> (sets h); maps := maps h |}).
Proof.
  revert h. induction cs as [|c cs IH]; intros [ss ms]; cbn.
  - rewrite union_empty_r_L. destruct (decide (r < length ss)%nat).
    + rewrite list_insert_id; [done|]. by apply list_lookup_lookup_total_lt.
    + by rewrite list_insert_ge by lia.
  - rewrite IH. cbn [sets maps].
    do 2 f_equal. destruct (decide (r < length ss)%nat).
    + rewrite list_lookup_total_insert_eq by done. rewrite list_insert_insert_eq.
      f_equal. by rewrite (assoc_L (∪)).
    + by rewrite !list_insert_ge by (rewrite ?length_insert; lia).
Qed.

Lemma lookup_total_unallocated (ss : list (gset Card)) s :
  (length ss ≤ s)%nat → ss !!! s = ∅.
Proof. intros Hs. by rewrite list_lookup_total_alt, lookup_ge_None_2. Qed.

Lemma lookup_total_snoc_empty (ss : list (gset Card)) s :
  (ss ++ [∅]) !!! s = ss !!! s.
Proof.
  destruct (decide (s < length ss)%nat).
  - by rewrite lookup_total_app_l.
  - rewrite lookup_total_app_r, (lookup_total_unallocated ss) by lia.
    destruct (s - length ss)%nat as [|[|?]]; done.
Qed.

Lemma add_all_run o h :
  add_all o (length (sets h)) {| sets := sets h ++ [∅]; maps := maps h |} =
  (tt, {| sets := sets h ++ [from_option (λ s, sets h !!! s) ∅ o]; maps := maps h |}).
Proof.
  destruct o as [s|]; cbn; [|done].
  run. rewrite Set_add_all. cbn [sets maps].
  do 2 f_equal. rewrite list_to_set_elements_L, !lookup_total_snoc_empty.
  rewrite (lookup_total_unallocated (sets h) (length _)), union_empty_l_L by lia.
  replace (length (sets h)) with (length (sets h) + 0)%nat by lia.
  by rewrite insert_app_r.
Qed.

Lemma Array_get_members h B i :
  (0 ≤ i)%Z →
  from_option (λ s, sets h !!! s) ∅ (Array_get B i) = bucket_members h B (Z.to_nat i).
Proof.
  intros Hi. unfold Array_get, bucket_members. rewrite bool_decide_true by done.
  by destruct (B !! Z.to_nat i) as [[s|]|].
Qed.

(** ** getHint *)

(** C10: [getHint card] is the empty string when the back of the card is
    empty or absent, or when its stored hint is empty or absent; otherwise
    it is the first character of the back, and no part of the stored hint. *)
Theorem getHint_first_character_of_back (card : Flashcard) :
  getHint card =
    match back card, hint card with
    | Some (String a _), Some (String _ _) => String a EmptyString
    | _, _ => EmptyString
    end.
Proof.
  unfold getHint. destruct (back card) as [[|a b]|], (hint card) as [[|x y]|]; done.
Qed.

(** ** practice *)

(** C2: [practice B day] returns a new set; on day 0 it holds the members
    of bucket 0 (none if [B] has no index 0), whatever the other buckets
    hold; on a day with [0 < day < length B] it holds the members of bucket
    [day]; and on a day [>= length B] it is empty.  Nothing else in the
    heap changes. *)
Theorem practice_selects_bucket_of_day (h : Heap) (B : BucketArray) (day : Z) :
  0 ≤ day →
  ∃ due : gset Card,
    practice B day h =
      (length (sets h), {| sets := sets h ++ [due]; maps := maps h |}) ∧
    (day = 0 → due = bucket_members h B 0) ∧
    (0 < day < Z.of_nat (length B) → due = bucket_members h B (Z.to_nat day)) ∧
    (Z.of_nat (length B) ≤ day → due = ∅).
Proof.
  intros Hday. unfold practice, bind at 1, new_Set.
  destruct (Z.eqb_spec day 0) as [->|Hne].
  - exists (bucket_members h B 0). unfold bind, ret. rewrite add_all_run.
    rewrite Array_get_members by done. split; [done|]. split; [done|]. split; [lia|].
    intros Hlen. unfold bucket_members. by rewrite lookup_ge_None_2 by (cbn; lia).
  - destruct (Z.ltb_spec day (Z.of_nat (length B))) as [Hlt|Hge].
    + exists (bucket_members h B (Z.to_nat day)). unfold bind, ret. rewrite add_all_run.
      rewrite Array_get_members by done. split; [done|]. repeat split; [lia|lia].
    + exists ∅. unfold bind, ret. split; [done|]. repeat split; [lia|lia].
Qed.

(** ** computeProgress *)

(** C9: [computeProgress] never reads its history argument: any two
    histories give the same four statistics. *)
Theorem computeProgress_ignores_history (h : Heap) (S : loc) (h1 h2 : list HistoryEntry) :
  computeProgress S h1 h = computeProgress S h2 h.
Proof. reflexivity. Qed.

(** ** toBucketSets *)

Lemma entries_get_Some k s (es : list (key * loc)) :
  NoDup es.*1 → entries_get k es = Some s ↔ (k, s) ∈ es.
Proof.
  induction es as [|[k' s'] es IH]; cbn; intros Hnd.
  - split; [done|]. by intros ?%elem_of_nil.
  - apply NoDup_cons in Hnd as [Hk Hnd]. rewrite elem_of_cons. case_decide as Hkk.
    + subst k'. split; [intros [= ->]; by left|].
      intros [[= ->]|Hin]; [done|]. destruct Hk. apply list_elem_of_fmap. by exists (k, s).
    + rewrite IH by done. split; [by right|]. by intros [[= -> ->]|Hin].
Qed.

Lemma entries_get_None k (es : list (key * loc)) :
  entries_get k es = None ↔ k ∉ es.*1.
Proof.
  induction es as [|[k' s'] es IH]; cbn.
  - split; [|done]. intros _ ?%elem_of_nil. done.
  - rewrite not_elem_of_cons. case_decide as Hkk.
    + subst. split; [done|]. by intros [? _].
    + rewrite IH. naive_solver.
Qed.

Lemma for_fold_read {A S} (body : A → S → M S) (f : A → S → S) (xs : list A) (s : S) h :
  (∀ x s, body x s h = (f x s, h)) →
  for_fold xs body s h = (foldl (λ s x, f x s) s xs, h).
Proof.
  intros Hbody. revert s. induction xs as [|x xs IH]; intros s; cbn; [done|].
  unfold bind. rewrite Hbody. apply IH.
Qed.

Lemma is_bucket_number_inv k : is_bucket_number k → ∃ n, k = bucket n ∧ 0 ≤ n.
Proof. destruct k as [[n| |]|]; cbn; [eauto|done..]. Qed.

Lemma Math_max_bucket_numbers ks :
  ks ≠ [] → Forall is_bucket_number ks →
  ∃ m, Math_max ks = Num m ∧ bucket m ∈ ks ∧ ∀ n, bucket n ∈ ks → 0 ≤ n ≤ m.
Proof.
  induction ks as [|k ks IH]; [done|]. intros _ Hks.
  apply Forall_cons in Hks as [Hk Hks]. apply is_bucket_number_inv in Hk as (n & -> & Hn).
  destruct ks as [|k' ks'].
  - exists n. cbn. split; [done|]. split; [left|].
    intros n' [[= ->]|Hin]%elem_of_cons; [lia|]. by apply elem_of_nil in Hin.
  - destruct IH as (m & Hmax & Hin & Hle); [done..|].
    exists (Z.max n m). change (Math_max (bucket n :: k' :: ks'))
      with (number_max (Num n) (Math_max (k' :: ks'))). rewrite Hmax. cbn.
    split; [done|]. split.
    + destruct (Z.max_spec n m) as [[_ ->]|[_ ->]]; [by right|left].
    + intros n' [[= ->]|Hin']%elem_of_cons; [lia|]. specialize (Hle _ Hin'). lia.
Qed.

(** The first loop of [toBucketSets] fills the new array with new empty
    sets, one per index. *)
Lemma fill_with_empty_sets m : ∀ (pre : BucketArray) h,
  for_fold (Z.of_nat <$> seq (length pre) m)
    (λ i result, let* s := new_Set ∅ in ret (Array_set result (bucket i) s))
    (pre ++ replicate m None) h =
  (pre ++ (Some <$> seq (length (sets h)) m),
   {| sets := sets h ++ replicate m ∅; maps := maps h |}).
Proof.
  induction m as [|m IH]; intros pre [ss ms]; cbn [seq fmap list_fmap for_fold replicate].
  - rewrite ret_run. cbn. by rewrite !app_nil_r.
  - run.
    replace (Array_set (pre ++ None :: replicate m None) (bucket (Z.of_nat (length pre))) (length ss))
      with ((pre ++ [Some (length ss)]) ++ replicate m None).
    2:{ unfold Array_set, bucket. rewrite bool_decide_true by lia.
        rewrite Nat2Z.id, bool_decide_true by (rewrite length_app; cbn; lia).
        rewrite insert_app_r_alt, Nat.sub_diag by lia. cbn. by rewrite <-app_assoc. }
    specialize (IH (pre ++ [Some (length ss)]) {| sets := ss ++ [∅]; maps := ms |}).
    rewrite length_app in IH. cbn [length sets maps] in IH.
    rewrite Nat.add_1_r in IH. rewrite IH, length_app. cbn [length].
    rewrite Nat.add_1_r, <-!app_assoc. done.
Qed.

(** The second loop overwrites the index of every key with the set of the
    map; the keys being distinct, no index is written twice. *)
Lemma overwrite_with_map_sets es : ∀ (base : BucketArray),
  NoDup es.*1 →
  Forall (λ k, ∃ n, k = bucket n ∧ 0 ≤ n < Z.of_nat (length base)) es.*1 →
  let arr := foldl (λ result e, Array_set result e.1 e.2) base es in
  length arr = length base ∧
  ∀ i, (i < length base)%nat →
    arr !! i = match entries_get (bucket (Z.of_nat i)) es with
               | Some s => Some (Some s)
               | None => base !! i
               end.
Proof.
  induction es as [|[k s] es IH]; intros base Hnd Hks; cbn [foldl entries_get].
  - done.
  - cbn in Hnd, Hks. apply NoDup_cons in Hnd as [Hk Hnd].
    apply Forall_cons in Hks as [(n & -> & Hn) Hks].
    assert (Hset : Array_set base (bucket n) s = <[Z.to_nat n := Some s]> base).
    { unfold Array_set, bucket. by rewrite !bool_decide_true by lia. }
    cbn [fst snd]. rewrite Hset. destruct (IH (<[Z.to_nat n := Some s]> base)) as [Hlen Hget]; [done| |].
    { by rewrite length_insert. }
    rewrite length_insert in Hlen, Hget. split; [done|]. intros i Hi.
    rewrite Hget by done. destruct (decide (bucket n = bucket (Z.of_nat i))) as [[= ->]|Hne].
    + rewrite Nat2Z.id. destruct (entries_get _ es) as [s'|] eqn:Hes.
      * exfalso. apply Hk. clear -Hes. induction es as [|[k' s''] es IH]; [done|].
        cbn in *. case_decide; [subst; left|right; auto].
      * by rewrite list_lookup_insert_eq.
    + destruct (entries_get _ es); [done|]. rewrite list_lookup_insert_ne; [done|].
      intros <-. apply Hne. by rewrite Z2Nat.id by lia.
Qed.

Lemma bucket_key_in_range (ks : list key) (m : Z) :
  Forall is_bucket_number ks →
  (∀ n, bucket n ∈ ks → 0 ≤ n ≤ m) →
  Forall (λ k, ∃ n, k = bucket n ∧ 0 ≤ n < Z.of_nat (Z.to_nat (m + 1))) ks.
Proof.
  intros Hks Hle. apply Forall_forall. intros k Hk.
  destruct (is_bucket_number_inv k) as (n & -> & Hn).
  { by eapply Forall_forall in Hks. }
  exists n. split; [done|]. specialize (Hle _ Hk). lia.
Qed.

(** What [toBucketSets] does on a bucket map with at least one key. *)
Lemma toBucketSets_run h S :
  BucketMap h S → keys_below 4294967295 h S → maps h !!! S ≠ [] →
  ∃ (maxB : Z) (arr : BucketArray),
    toBucketSets S h =
      (Normal arr,
       {| sets := sets h ++ replicate (Z.to_nat (maxB + 1)) ∅; maps := maps h |}) ∧
    bucket maxB ∈ (maps h !!! S).*1 ∧
    (∀ n, bucket n ∈ (maps h !!! S).*1 → 0 ≤ n ≤ maxB) ∧
    length arr = Z.to_nat (maxB + 1) ∧
    (∀ i, (i < length arr)%nat →
      arr !! i =
        Some (Some (default (length (sets h) + i)%nat
                      (entries_get (bucket (Z.of_nat i)) (maps h !!! S))))) ∧
    ∀ i, bucket_members {| sets := sets h ++ replicate (Z.to_nat (maxB + 1)) ∅;
                           maps := maps h |} arr i =
         members h S (bucket (Z.of_nat i)).
Proof.
  intros (Halloc & Hnd & Hks & Hss) Hbelow Hne.
  destruct (Math_max_bucket_numbers (maps h !!! S).*1) as (m & Hmax & Hin & Hle); [|done|].
  { by destruct (maps h !!! S). }
  assert (0 ≤ m) by (specialize (Hle _ Hin); lia).
  assert (m < 4294967295) as Hm.
  { unfold keys_below in Hbelow. rewrite Forall_forall in Hbelow. apply (Hbelow _ Hin). }
  pose proof (overwrite_with_map_sets (maps h !!! S)
                (Some <$> seq (length (sets h)) (Z.to_nat (m + 1))) Hnd) as Hover.
  rewrite length_fmap, length_seq in Hover.
  destruct Hover as [Hlen Hget]; [by apply bucket_key_in_range|].
  assert (Hentry : ∀ i, (i < Z.to_nat (m + 1))%nat →
    foldl (λ result e, Array_set result e.1 e.2)
      (Some <$> seq (length (sets h)) (Z.to_nat (m + 1))) (maps h !!! S) !! i =
    Some (Some (default (length (sets h) + i)%nat
                  (entries_get (bucket (Z.of_nat i)) (maps h !!! S))))).
  { intros i Hi. rewrite Hget by done.
    destruct (entries_get _ _); [done|]. cbn.
    rewrite list_lookup_fmap, lookup_seq_lt by done. done. }
  eexists m, _. split; [|split; [done|split; [done|split; [exact Hlen|split]]]].
  - unfold toBucketSets. run.
    destruct (Z.eqb_spec (Z.of_nat (length (maps h !!! S))) 0) as [Hz|_].
    { destruct (maps h !!! S); [done|cbn in Hz; lia]. }
    run. rewrite Hmax. cbv zeta. rewrite double_add_exact by lia.
    destruct (Z.ltb_spec (m + 1) 0); [lia|].
    destruct (Z.ltb_spec 4294967295 (m + 1)); [lia|]. cbn [orb].
    pose proof (fill_with_empty_sets (Z.to_nat (m + 1)) [] h) as Hfill.
    cbn [length app] in Hfill. unfold range. rewrite bind_run, Hfill. cbn [fst snd].
    rewrite bind_run, (for_fold_read _ (λ e result, Array_set result e.1 e.2)).
    + done.
    + by intros [k s] result.
  - intros i Hi. rewrite Hlen in Hi. by apply Hentry.
  - intros i. unfold bucket_members, members. cbn [sets].
    destruct (decide (i < Z.to_nat (m + 1))%nat) as [Hi|Hi].
    + rewrite Hentry by done.
      destruct (entries_get _ _) as [s|] eqn:Hs; cbn [default from_option].
      * apply entries_get_Some in Hs; [|done]. rewrite lookup_total_app_l; [done|].
        eapply Forall_forall in Hss; [exact Hss|]. apply list_elem_of_fmap.
        by exists (bucket (Z.of_nat i), s).
      * rewrite lookup_total_app_r by lia. rewrite lookup_total_replicate_2; [done|lia].
    + rewrite lookup_ge_None_2 by lia.
      destruct (entries_get _ _) as [s|] eqn:Hs; cbn [from_option]; [|done].
      apply entries_get_Some in Hs; [|done]. exfalso.
      assert (0 ≤ Z.of_nat i ≤ m); [|lia]. apply Hle, list_elem_of_fmap.
      by exists (bucket (Z.of_nat i), s).
Qed.

(** C3, as the code has it: an array has at most 2^32 - 1 elements, so
    the keys are to be below 2^32 - 1.  Then on a map without keys
    [toBucketSets] returns the empty array.  Otherwise the array has length
    (largest key) + 1; its entry at every key of the map is the very set
    the map holds for that key, with its members unchanged; and its entry
    at every index that is no key is a new, empty set. *)
Theorem toBucketSets_dense_form (h : Heap) (S : loc) :
  BucketMap h S →
  keys_below 4294967295 h S →
  (maps h !!! S = [] → toBucketSets S h = (Normal [], h)) ∧
  (maps h !!! S ≠ [] →
   ∃ (maxB : Z) (arr : BucketArray) (h' : Heap),
     toBucketSets S h = (Normal arr, h') ∧
     bucket maxB ∈ (maps h !!! S).*1 ∧
     (∀ n, bucket n ∈ (maps h !!! S).*1 → n ≤ maxB) ∧
     Z.of_nat (length arr) = maxB + 1 ∧
     (∀ n s, (bucket n, s) ∈ maps h !!! S →
        arr !! Z.to_nat n = Some (Some s) ∧ sets h' !!! s = sets h !!! s) ∧
     (∀ i, (i < length arr)%nat → bucket (Z.of_nat i) ∉ (maps h !!! S).*1 →
        ∃ s, arr !! i = Some (Some s) ∧ (length (sets h) ≤ s)%nat ∧ sets h' !!! s = ∅)).
Proof.
  intros HS Hbelow. split.
  - intros Hnil. unfold toBucketSets. run. by rewrite Hnil.
  - intros Hne.
    destruct (toBucketSets_run h S HS Hbelow Hne)
      as (m & arr & Hrun & Hin & Hle & Hlen & Hget & _).
    destruct HS as (Halloc & Hnd & Hks & Hss).
    assert (0 ≤ m) by (specialize (Hle _ Hin); lia).
    eexists m, arr, _. split; [exact Hrun|]. split; [done|]. split.
    { intros n Hn. specialize (Hle _ Hn). lia. }
    split; [lia|]. cbn [sets]. split.
    + intros n s Hns.
      assert (Hn : bucket n ∈ (maps h !!! S).*1).
      { apply list_elem_of_fmap. by exists (bucket n, s). }
      assert (Hs : (s < length (sets h))%nat).
      { eapply Forall_forall in Hss; [exact Hss|]. apply list_elem_of_fmap. by exists (bucket n, s). }
      specialize (Hle _ Hn). rewrite Hget by lia. rewrite Z2Nat.id by lia. split.
      * apply entries_get_Some in Hns; [|done]. by rewrite Hns.
      * by rewrite lookup_total_app_l.
    + intros i Hi Hnk. rewrite Hget by done.
      apply entries_get_None in Hnk. rewrite Hnk.
      cbn. eexists. split; [done|]. split; [lia|].
      rewrite lookup_total_app_r by lia. 
      destruct (decide (length (sets h) + i - length (sets h) < Z.to_nat (m + 1))%nat).
      * by rewrite lookup_total_replicate_2.
      * by rewrite lookup_total_unallocated by (rewrite length_replicate; lia).
Qed.

(** ** getBucketRange *)

Lemma Set_size_pos (X : gset Card) : (0 <? Z.of_nat (size X)) = bool_decide (X ≠ ∅).
Proof.
  destruct (decide (X = ∅)) as [->|Hne].
  - by rewrite size_empty, bool_decide_false by naive_solver.
  - rewrite bool_decide_true by done. apply Z.ltb_lt.
    assert (size X ≠ 0%nat); [|lia]. by rewrite size_non_empty_iff, leibniz_equiv_iff.
Qed.

(** The loop of [getBucketRange] keeps the first and the last occupied
    index seen so far, and [-1] for none. *)
Lemma getBucketRange_loop h (B : BucketArray) (n : nat) :
  let occ := filter (λ i, bucket_members h B i ≠ ∅) (seq 0 n) in
  for_fold (range n)
    (λ i '(minBucket, maxBucket),
       match Array_get B i with
       | Some bucket =>
           let* n := Set_size bucket in
           if 0 <? n then ret (if minBucket =? -1 then i else minBucket, i)
           else ret (minBucket, maxBucket)
       | None => ret (minBucket, maxBucket)
       end)
    (-1, -1) h =
  ((from_option Z.of_nat (-1) (head occ), from_option Z.of_nat (-1) (last occ)), h).
Proof.
  intros occ. subst occ.
  rewrite (for_fold_read _
    (λ i s, if bool_decide (from_option (λ s, sets h !!! s) ∅ (Array_get B i) ≠ ∅)
            then (if s.1 =? -1 then i else s.1, i) else s)).
  2:{ intros i [mn mx]. destruct (Array_get B i) as [b|]; cbn [from_option].
      - run. rewrite Set_size_pos. by case_bool_decide.
      - by rewrite ret_run, bool_decide_false by naive_solver. }
  f_equal. unfold range. induction n as [|n IH]; [done|].
  rewrite seq_S, fmap_app, foldl_app, filter_app, IH. cbn [fmap list_fmap foldl plus].
  rewrite Array_get_members, Nat2Z.id by lia. rewrite filter_cons, filter_nil.
  destruct (decide (bucket_members h B n ≠ ∅)) as [Hocc|Hocc].
  - rewrite bool_decide_true by done. rewrite last_snoc. cbn [fst from_option].
    destruct (filter _ (seq 0 n)) as [|i occ]; cbn [head app from_option]; [done|].
    destruct (Z.eqb_spec (Z.of_nat i) (-1)); [lia|done].
  - rewrite bool_decide_false by done. by rewrite app_nil_r.
Qed.

(** [getBucketRange] returns the first and the last occupied index. *)
Lemma getBucketRange_run h (B : BucketArray) :
  getBucketRange B h =
  (match head (occupied h B), last (occupied h B) with
   | Some i, Some j => Some {| minBucket := Z.of_nat i; maxBucket := Z.of_nat j |}
   | _, _ => None
   end, h).
Proof.
  unfold getBucketRange. rewrite bind_run, getBucketRange_loop. cbn [fst snd].
  fold (occupied h B). destruct (occupied h B) as [|i occ] eqn:Hocc; [done|].
  cbn [head from_option]. destruct (Z.eqb_spec (Z.of_nat i) (-1)); [lia|].
  rewrite ret_run. destruct (last (i :: occ)) eqn:Hlast; [done|].
  by apply last_None in Hlast.
Qed.

Lemma filter_seq_head (P : nat → Prop) `{!∀ i, Decision (P i)} n : ∀ a i,
  head (filter P (seq a n)) = Some i → ∀ j, j ∈ filter P (seq a n) → (i ≤ j)%nat.
Proof.
  induction n as [|n IH]; intros a i; cbn [seq]; [done|].
  rewrite filter_cons. destruct (decide (P a)).
  - intros [= <-] j [->|Hj]%elem_of_cons; [done|].
    apply list_elem_of_filter in Hj as [_ Hj%elem_of_seq]. lia.
  - apply IH.
Qed.

Lemma filter_seq_last (P : nat → Prop) `{!∀ i, Decision (P i)} n a i :
  last (filter P (seq a n)) = Some i → ∀ j, j ∈ filter P (seq a n) → (j ≤ i)%nat.
Proof.
  revert i. induction n as [|n IH]; intros i; [done|].
  rewrite seq_S, filter_app, filter_cons, filter_nil. destruct (decide (P (a + n)%nat)).
  - rewrite last_snoc. intros [= <-] j [Hj|Hj]%elem_of_app.
    + apply list_elem_of_filter in Hj as [_ Hj%elem_of_seq]. lia.
    + apply list_elem_of_singleton in Hj as ->. lia.
  - rewrite app_nil_r. apply IH.
Qed.

Lemma foldr_min_spec (k : Z) (ks : list Z) :
  foldr Z.min k ks ∈ k :: ks ∧ ∀ x, x ∈ k :: ks → foldr Z.min k ks ≤ x.
Proof.
  induction ks as [|k' ks [IHin IHle]]; cbn.
  - split; [left|]. intros x ->%list_elem_of_singleton. lia.
  - split.
    + destruct (Z.min_spec k' (foldr Z.min k ks)) as [[_ ->]|[_ ->]].
      * right. left.
      * apply elem_of_cons in IHin as [->|Hin]; [left|right; by right].
    + intros x Hx. assert (Hx' : x = k' ∨ x ∈ k :: ks).
      { rewrite !elem_of_cons in *. naive_solver. }
      destruct Hx' as [->|Hx']; [lia|]. specialize (IHle _ Hx'). lia.
Qed.

Lemma foldr_max_spec (k : Z) (ks : list Z) :
  foldr Z.max k ks ∈ k :: ks ∧ ∀ x, x ∈ k :: ks → x ≤ foldr Z.max k ks.
Proof.
  induction ks as [|k' ks [IHin IHle]]; cbn.
  - split; [left|]. intros x ->%list_elem_of_singleton. lia.
  - split.
    + destruct (Z.max_spec k' (foldr Z.max k ks)) as [[_ ->]|[_ ->]].
      * apply elem_of_cons in IHin as [->|Hin]; [left|right; by right].
      * right. left.
    + intros x Hx. assert (Hx' : x = k' ∨ x ∈ k :: ks).
      { rewrite !elem_of_cons in *. naive_solver. }
      destruct Hx' as [->|Hx']; [lia|]. specialize (IHle _ Hx'). lia.
Qed.

(** A list of bucket numbers and an increasing list of indices with the
    same members span the same range. *)
Lemma key_range_occupied (P : nat → Prop) `{!∀ i, Decision (P i)} (n : nat) (ks : list Z) :
  (∀ x, x ∈ ks ↔ ∃ i, x = Z.of_nat i ∧ i ∈ filter P (seq 0 n)) →
  match head (filter P (seq 0 n)), last (filter P (seq 0 n)) with
  | Some i, Some j => Some {| minBucket := Z.of_nat i; maxBucket := Z.of_nat j |}
  | _, _ => None
  end = key_range ks.
Proof.
  intros Hks. destruct (head _) as [i|] eqn:Hhead.
  - destruct (last _) as [j|] eqn:Hlast.
    2:{ apply last_None in Hlast. by rewrite Hlast in Hhead. }
    pose proof (filter_seq_head P n 0 i Hhead) as Hmin.
    pose proof (filter_seq_last P n 0 j Hlast) as Hmax.
    apply head_Some_elem_of in Hhead. apply last_Some_elem_of in Hlast.
    destruct ks as [|k ks].
    { exfalso. eapply elem_of_nil, Hks. eauto. }
    cbn [key_range]. destruct (foldr_min_spec k ks) as [Hin1 Hle1].
    destruct (foldr_max_spec k ks) as [Hin2 Hle2].
    apply Hks in Hin1 as (i' & Hi' & Hin1). apply Hks in Hin2 as (j' & Hj' & Hin2).
    specialize (Hmin _ Hin1). specialize (Hmax _ Hin2).
    assert (Z.of_nat i ∈ k :: ks) as Hi by (apply Hks; eauto).
    assert (Z.of_nat j ∈ k :: ks) as Hj by (apply Hks; eauto).
    specialize (Hle1 _ Hi). specialize (Hle2 _ Hj).
    do 2 f_equal; lia.
  - apply head_None in Hhead. destruct ks as [|k ks]; [done|].
    destruct (Hks k) as [(i & _ & Hi) _]; [left|]. rewrite Hhead in Hi.
    by apply elem_of_nil in Hi.
Qed.

Lemma elem_of_occupied_keys h S (x : Z) :
  NoDup (maps h !!! S).*1 →
  x ∈ occupied_keys h S ↔ members h S (bucket x) ≠ ∅.
Proof.
  intros Hnd. unfold occupied_keys, members. rewrite list_elem_of_omap. split.
  - intros ([k s] & Hin & Hx). destruct k as [[n| |]|]; try done.
    destruct (decide (sets h !!! s ≠ ∅)); [|done]. injection Hx as ->.
    apply entries_get_Some in Hin; [|done]. unfold bucket. by rewrite Hin.
  - destruct (entries_get _ _) as [s|] eqn:Hs; cbn [from_option]; [|done].
    intros Hne. apply entries_get_Some in Hs; [|done]. exists (bucket x, s).
    split; [done|]. cbn. by rewrite decide_True.
Qed.

Lemma elem_of_occupied h (B : BucketArray) (i : nat) :
  i ∈ occupied h B ↔ bucket_members h B i ≠ ∅.
Proof.
  unfold occupied. rewrite list_elem_of_filter, elem_of_seq. split; [by intros []|].
  intros Hne. split; [done|]. split; [lia|]. cbn.
  destruct (decide (i < length B)%nat); [done|]. destruct Hne. unfold bucket_members.
  by rewrite lookup_ge_None_2 by lia.
Qed.

(** C8, as the code has it: for keys below 2^32 - 1, which fit an array,
    [getBucketRange (toBucketSets S)] is the smallest and the largest key
    of [S] whose set has cards, and [undefined] when no key of [S] has a
    set with cards. *)
Theorem getBucketRange_of_toBucketSets (h : Heap) (S : loc) :
  BucketMap h S →
  keys_below 4294967295 h S →
  ∃ (arr : BucketArray) (h' : Heap),
    toBucketSets S h = (Normal arr, h') ∧
    getBucketRange arr h' = (key_range (occupied_keys h S), h').
Proof.
  intros HS Hbelow. destruct (decide (maps h !!! S = [])) as [Hnil|Hne].
  - exists [], h. split.
    + unfold toBucketSets. run. by rewrite Hnil.
    + rewrite getBucketRange_run. unfold occupied_keys. by rewrite Hnil.
  - destruct (toBucketSets_run h S HS Hbelow Hne) as (m & arr & Hrun & Hin & Hle & Hlen & _ & Hmem).
    destruct HS as (_ & Hnd & Hks & _).
    eexists arr, _. split; [exact Hrun|]. rewrite getBucketRange_run. f_equal.
    apply key_range_occupied. intros x. fold (occupied {|
      sets := sets h ++ replicate (Z.to_nat (m + 1)) ∅; maps := maps h |} arr).
    rewrite elem_of_occupied_keys by done. split.
    + intros Hx. exists (Z.to_nat x).
      assert (0 ≤ x).
      { unfold members in Hx. destruct (entries_get _ _) as [s|] eqn:Hs; [|done].
        apply entries_get_Some in Hs; [|done]. apply (Hle x), list_elem_of_fmap.
        by exists (bucket x, s). }
      split; [lia|]. apply elem_of_occupied. rewrite Hmem. by rewrite Z2Nat.id by lia.
    + intros (i & -> & Hi). apply elem_of_occupied in Hi. by rewrite Hmem in Hi.
Qed.

(** C7, as the code has it: for keys below 2^32 - 1, which fit an array,
    the array of [toBucketSets S] has length 0 when [S] has no keys and
    otherwise (largest key of [S]) + 1, whether or not that key's set has
    cards.  The length asked for by the dense-form invariant, (largest
    occupied index) + 1, is never more than that, and it is reached exactly
    when the set of the largest key has cards. *)
Theorem toBucketSets_length (h : Heap) (S : loc) :
  BucketMap h S →
  keys_below 4294967295 h S →
  ∃ (arr : BucketArray) (h' : Heap),
    toBucketSets S h = (Normal arr, h') ∧
    (maps h !!! S = [] → length arr = 0%nat) ∧
    (occupied_length h' arr ≤ length arr)%nat ∧
    ∀ maxB : Z,
      bucket maxB ∈ (maps h !!! S).*1 →
      (∀ n, bucket n ∈ (maps h !!! S).*1 → n ≤ maxB) →
      Z.of_nat (length arr) = maxB + 1 ∧
      (occupied_length h' arr = length arr ↔ members h S (bucket maxB) ≠ ∅).
Proof.
  intros HS Hbelow.
  assert (Hbound : ∀ h' (arr : BucketArray), (occupied_length h' arr ≤ length arr)%nat).
  { intros h' arr. unfold occupied_length. destruct (last _) as [j|] eqn:Hlast; cbn; [|lia].
    apply last_Some_elem_of, list_elem_of_filter in Hlast as [_ Hj%elem_of_seq]. lia. }
  destruct (decide (maps h !!! S = [])) as [Hnil|Hne].
  - exists [], h. split; [unfold toBucketSets; run; by rewrite Hnil|].
    split; [done|]. split; [done|]. intros maxB Hin. rewrite Hnil in Hin.
    by apply elem_of_nil in Hin.
  - destruct (toBucketSets_run h S HS Hbelow Hne) as (m & arr & Hrun & Hin & Hle & Hlen & _ & Hmem).
    eexists arr, _. split; [exact Hrun|]. split; [done|]. split; [apply Hbound|].
    intros maxB HmaxB Hlargest.
    assert (maxB = m) as ->.
    { specialize (Hlargest _ Hin). specialize (Hle _ HmaxB). lia. }
    assert (0 ≤ m) by (specialize (Hle _ Hin); lia).
    split; [lia|]. set (h' := {| sets := _; maps := _ |}) in *.
    assert (members h S (bucket m) = bucket_members h' arr (Z.to_nat m)) as ->.
    { by rewrite Hmem, Z2Nat.id by lia. }
    unfold occupied_length. split.
    + destruct (last _) as [j|] eqn:Hlast; cbn [from_option]; [|lia].
      intros Hj. apply last_Some_elem_of, elem_of_occupied in Hlast.
      by replace (Z.to_nat m) with j by lia.
    + intros Hocc%elem_of_occupied. destruct (last _) as [j|] eqn:Hlast.
      * cbn [from_option]. pose proof (filter_seq_last _ _ _ _ Hlast _ Hocc).
        apply last_Some_elem_of, list_elem_of_filter in Hlast as [_ Hj%elem_of_seq]. lia.
      * apply last_None in Hlast. rewrite Hlast in Hocc. by apply elem_of_nil in Hocc.
Qed.

(** ** computeProgress *)

(** The innermost loop adds the number of the first bucket that holds the
    card. *)
Lemma find_bucket_loop h es card : ∀ (sum : number Z),
  for_break es
    (λ '(bucketNum, set) totalBucketSum,
       let* found := Set_has set card in
       if found then ret (number_add totalBucketSum (ToNumber bucketNum), true)
       else ret (totalBucketSum, false))
    sum h =
  (from_option (λ k, number_add sum (ToNumber k)) sum (first_bucket h es card), h).
Proof.
  induction es as [|[k s] es IH]; intros sum; cbn [for_break first_bucket]; [done|].
  run. destruct (decide (card ∈ sets h !!! s)) as [Hin|Hin].
  - by rewrite bool_decide_true by done.
  - rewrite bool_decide_false by done. cbn [fst snd]. apply IH.
Qed.

Lemma first_bucket_own h es k s card :
  one_bucket_per_card ((λ e, (e.1, sets h !!! e.2)) <$> es) →
  (k, s) ∈ es → card ∈ sets h !!! s →
  first_bucket h es card = Some k.
Proof.
  induction es as [|[k0 s0] es IH]; cbn; intros Hone Hin Hcard.
  - by apply elem_of_nil in Hin.
  - destruct Hone as [Hdisj Hone].
    apply elem_of_cons in Hin as [[= <- <-]|Hin]; [by rewrite decide_True|].
    rewrite decide_False; [by apply IH|]. intros Hcard0.
    rewrite Forall_fmap, Forall_forall in Hdisj. specialize (Hdisj _ Hin). cbn in Hdisj.
    set_solver.
Qed.

(** While the sum stays within 2^53, every addition to it is exact. *)
Lemma sum_bucket_numbers h es (n : Z) (cs : list Card) : ∀ (sum : Z),
  (∀ c, c ∈ cs → first_bucket h es c = Some (bucket n)) →
  0 ≤ n → 0 ≤ sum →
  sum + n * Z.of_nat (length cs) ≤ 9007199254740992 →
  foldl (λ sum card, from_option (λ k, number_add sum (ToNumber k)) sum
                        (first_bucket h es card)) (Num sum) cs =
  Num (sum + n * Z.of_nat (length cs)).
Proof.
  induction cs as [|c cs IH]; intros sum Hcs Hn Hsum Hbound; cbn [foldl length] in *.
  - f_equal. lia.
  - rewrite Hcs by left. cbn [from_option ToNumber bucket number_add].
    rewrite double_add_exact by nia. rewrite IH.
    + f_equal. lia.
    + intros c' Hc'. apply Hcs. by right.
    + done.
    + lia.
    + lia.
Qed.

Lemma bucket_number_sum_nonneg bs :
  Forall is_bucket_number bs.*1 → 0 ≤ bucket_number_sum bs.
Proof.
  induction bs as [|[k X] bs IH]; cbn; [done|]. intros [Hk Hks]%Forall_cons.
  fold (bucket_number_sum bs). specialize (IH Hks).
  apply is_bucket_number_inv in Hk as (n & -> & Hn). cbn. nia.
Qed.

(** The first loop of [computeProgress], over the entries not yet seen. *)
Lemma count_loop h es : ∀ (suf : list (key * loc)) (total sum : Z),
  Forall is_bucket_number suf.*1 →
  (∀ k s c, (k, s) ∈ suf → c ∈ sets h !!! s → first_bucket h es c = Some k) →
  0 ≤ sum →
  sum + bucket_number_sum ((λ e, (e.1, sets h !!! e.2)) <$> suf) ≤ 9007199254740992 →
  for_fold suf.*2
    (λ cardSet '(totalCards, totalBucketSum),
       let* n := Set_size cardSet in
       let* cards := Set_members cardSet in
       let* totalBucketSum :=
         for_fold (elements cards)
           (λ card totalBucketSum,
              for_break es
                (λ '(bucketNum, set) totalBucketSum,
                   let* found := Set_has set card in
                   if found then
                     ret (number_add totalBucketSum (ToNumber bucketNum), true)
                   else ret (totalBucketSum, false))
                totalBucketSum)
           totalBucketSum in
       ret (totalCards + n, totalBucketSum))
    (total, Num sum) h =
  ((total + total_cards ((λ e, (e.1, sets h !!! e.2)) <$> suf),
    Num (sum + bucket_number_sum ((λ e, (e.1, sets h !!! e.2)) <$> suf))), h).
Proof.
  induction suf as [|[k s] suf IH]; intros total sum Hks Hown Hsum Hbound;
    cbn [fmap list_fmap for_fold total_cards bucket_number_sum foldr fst snd] in *.
  - rewrite ret_run. do 3 f_equal; lia.
  - cbn in Hks. apply Forall_cons in Hks as [Hk Hks].
    apply is_bucket_number_inv in Hk as (n & -> & Hn).
    fold (total_cards ((λ e, (e.1, sets h !!! e.2)) <$> suf)).
    fold (bucket_number_sum ((λ e, (e.1, sets h !!! e.2)) <$> suf)) in *.
    pose proof (bucket_number_sum_nonneg ((λ e, (e.1, sets h !!! e.2)) <$> suf)) as Hrest.
    rewrite <-list_fmap_compose in Hrest. specialize (Hrest Hks).
    cbn [key_number bucket] in Hbound. unfold size, set_size in Hbound. cbn [compose] in Hbound.
    run.
    rewrite (for_fold_read _ (λ card sum,
      from_option (λ k, number_add sum (ToNumber k)) sum (first_bucket h es card))).
    2:{ intros card sum'. apply find_bucket_loop. }
    cbn [fst snd]. rewrite (sum_bucket_numbers h es n); [|..|lia]; [| |done|done].
    2:{ intros c Hc%elem_of_elements. eapply Hown; [left|done]. }
    rewrite IH; [|done| |nia|lia].
    + cbn [key_number bucket]. unfold size, set_size. cbn [compose].
      by rewrite !Z.add_assoc.
    + intros k' s' c' Hin. apply Hown. by right.
Qed.

(** The second loop, which counts the cards of the buckets 2 and up. *)
Lemma mastered_loop h : ∀ (es : list (key * loc)) (mastered : Z),
  Forall is_bucket_number es.*1 →
  for_fold es
    (λ '(bucketNum, cardSet) masteredCards,
       if number_ge (ToNumber bucketNum) 2 then
         let* n := Set_size cardSet in
         ret (masteredCards + n)
       else ret masteredCards)
    mastered h =
  (mastered + mastered_cards ((λ e, (e.1, sets h !!! e.2)) <$> es), h).
Proof.
  induction es as [|[k s] es IH]; intros mastered Hks;
    cbn [fmap list_fmap for_fold mastered_cards foldr fst snd].
  - rewrite ret_run. do 2 f_equal; lia.
  - cbn in Hks. apply Forall_cons in Hks as [Hk Hks].
    apply is_bucket_number_inv in Hk as (n & -> & Hn). run.
    fold (mastered_cards ((λ e, (e.1, sets h !!! e.2)) <$> es)).
    cbn [ToNumber bucket number_ge key_number]. case_bool_decide.
    + rewrite decide_True by done. run. rewrite IH by done. by rewrite Z.add_assoc.
    + rewrite decide_False by done. run. by rewrite IH.
Qed.

(** C4, as the code has it: the sum of the bucket numbers is kept in a
    double, which holds it exactly up to 2^53.  For a map whose sum is at
    most 2^53, [computeProgress S history] returns as [totalCards] the sum
    of the sizes of all bucket sets of [S], as [masteredCards] the sum of
    the sizes of the buckets numbered 2 and up, as [strugglingCards] the
    size of bucket 0 (0 if absent), and as [averageBucket] the double
    nearest to the sum over all cards of their bucket number divided by
    [totalCards] when there are cards, and exactly 0 when there are none.
    It leaves the heap as it was. *)
Theorem computeProgress_statistics (h : Heap) (S : loc) (history : list HistoryEntry) :
  BucketMap h S →
  one_bucket_per_card (contents h S) →
  bucket_number_sum (contents h S) ≤ 9007199254740992 →
  computeProgress S history h =
    ({| totalCards := total_cards (contents h S);
        masteredCards := mastered_cards (contents h S);
        strugglingCards := Z.of_nat (size (members h S (bucket 0)));
        averageBucket :=
          if decide (0 < total_cards (contents h S)) then
            Num (double_div (bucket_number_sum (contents h S))
                            (total_cards (contents h S)))
          else Num 0%Q |}, h).
Proof.
  intros (_ & _ & Hks & _) Hone Hbound. unfold computeProgress, contents in *.
  rewrite bind_run, Map_entries_run. cbn [fst snd].
  rewrite bind_run, (count_loop h (maps h !!! S) (maps h !!! S) 0 0 Hks); [| |done|done].
  2:{ intros k s c. by apply first_bucket_own. }
  cbn [fst snd]. rewrite bind_run, (mastered_loop h _ 0 Hks). run.
  rewrite !Z.add_0_l. unfold members.
  set (total := total_cards _). set (sum := bucket_number_sum _).
  assert (Havg : (if 0 <? total then number_div (Num sum) total else Num 0%Q) =
                 if decide (0 < total) then Num (double_div sum total) else Num 0%Q).
  { destruct (Z.ltb_spec 0 total); [by rewrite decide_True|by rewrite decide_False by lia]. }
  rewrite Havg. destruct (entries_get _ _) as [s|]; run; cbn [or_zero from_option].
  - by destruct (Z.eqb_spec (Z.of_nat (size (sets h !!! s))) 0) as [->|].
  - by rewrite size_empty.
Qed.

(** ** update *)

Lemma entries_set_new k v (es : list (key * loc)) :
  k ∉ es.*1 → entries_set k v es = es ++ [(k, v)].
Proof.
  induction es as [|[k' v'] es IH]; cbn; [done|]. intros [Hk Hin]%not_elem_of_cons.
  rewrite decide_False by done. by rewrite IH.
Qed.

(** The copy loop: every set of the map gets a new copy, filed in the new
    map under the same key, in the same order. *)
Lemma copy_loop (m' : loc) : ∀ (suf cur : list (key * loc)) (h1 : Heap),
  maps h1 !! m' = Some cur →
  NoDup (cur.*1 ++ suf.*1) →
  Forall (λ s, (s < length (sets h1))%nat) suf.*2 →
  for_of suf
    (λ '(bucketNum, cardSet),
       let* cards := Set_members cardSet in
       let* copy := new_Set cards in
       Map_set m' bucketNum copy) h1 =
  (tt, {| sets := sets h1 ++ ((λ e, sets h1 !!! e.2) <$> suf);
          maps := <[m' := cur ++ zip suf.*1 (seq (length (sets h1)) (length suf))]> (maps h1) |}).
Proof.
  induction suf as [|[k s] suf IH]; intros cur [ss ms] Hcur Hnd Hss;
    cbn [for_of fmap list_fmap length seq zip zip_with sets maps fst snd] in *.
  - rewrite ret_run, !app_nil_r. by rewrite list_insert_id.
  - apply Forall_cons in Hss as [Hs Hss]. run.
    rewrite (list_lookup_total_correct _ _ _ Hcur).
    rewrite entries_set_new.
    2:{ apply NoDup_app in Hnd as (_ & Hdisj & _). intros Hin. apply (Hdisj _ Hin). left. }
    rewrite (IH (cur ++ [(k, length ss)])); cbn [sets maps].
    + rewrite list_insert_insert_eq, length_app. cbn [length].
      rewrite Nat.add_1_r, <-!app_assoc. cbn [app]. do 4 f_equal.
      apply list_fmap_ext. intros i [k' s'] Hi. cbn.
      rewrite lookup_total_app_l; [done|].
      eapply Forall_forall in Hss; [exact Hss|]. apply list_elem_of_fmap.
      exists (k', s'). split; [done|]. by eapply list_elem_of_lookup_2.
    + apply list_lookup_insert_eq. by eapply lookup_lt_Some.
    + rewrite fmap_app. cbn. by rewrite <-app_assoc.
    + eapply Forall_impl; [exact Hss|]. intros l Hl. rewrite length_app. cbn in *. lia.
Qed.

(** The search loop, on the copies: they sit in the heap one after the
    other, from [length pre] on. *)
Lemma search_loop card : ∀ (bs : list (key * gset Card)) (pre : list (gset Card)) ms cur0,
  for_break (zip bs.*1 (seq (length pre) (length bs)))
    (λ '(bucketNum, cardSet) currentBucket,
       let* found := Set_has cardSet card in
       if found then Set_delete cardSet card >> ret (bucketNum, true)
       else ret (currentBucket, false))
    cur0 {| sets := pre ++ bs.*2; maps := ms |} =
  ((remove_first card cur0 bs).1,
   {| sets := pre ++ (remove_first card cur0 bs).2.*2; maps := ms |}).
Proof.
  induction bs as [|[k X] bs IH]; intros pre ms cur0;
    cbn [for_break fmap list_fmap length seq zip zip_with remove_first fst snd].
  - done.
  - run. rewrite list_lookup_total_middle by done.
    destruct (decide (card ∈ X)) as [Hin|Hin].
    + rewrite bool_decide_true by done. run. cbn [fmap list_fmap fst snd].
      rewrite list_lookup_total_middle by done.
      by rewrite insert_app_r_alt, Nat.sub_diag by lia.
    + rewrite bool_decide_false by done. run. cbn [fmap list_fmap fst snd].
      specialize (IH (pre ++ [X]) ms cur0). rewrite length_app in IH. cbn [length] in IH.
      rewrite Nat.add_1_r, <-!app_assoc in IH. exact IH.
Qed.

Lemma remove_first_keys card cur0 bs : (remove_first card cur0 bs).2.*1 = bs.*1.
Proof.
  induction bs as [|[k X] bs IH]; cbn; [done|]. case_decide; cbn; [done|]. by rewrite IH.
Qed.

(** Where the last phase finds or creates the destination bucket. *)
Lemma file_loop card k : ∀ (bs : list (key * gset Card)) (pre : list (gset Card)),
  match entries_get k (zip bs.*1 (seq (length pre) (length bs))) with
  | Some s =>
      <[s := (pre ++ bs.*2) !!! s ∪ {[card]}]> (pre ++ bs.*2) = pre ++ (file_card card k bs).*2 ∧
      (file_card card k bs).*1 = bs.*1
  | None => (k ∉ bs.*1) ∧ file_card card k bs = bs ++ [(k, ∅ ∪ {[card]})]
  end.
Proof.
  induction bs as [|[k' X] bs IH]; intros pre;
    cbn [fmap list_fmap length seq zip zip_with entries_get file_card fst snd app].
  - split; [|done]. by intros ?%elem_of_nil.
  - destruct (decide (k' = k)) as [->|Hne].
    + cbn [fmap list_fmap fst snd]. rewrite list_lookup_total_middle by done.
      by rewrite insert_app_r_alt, Nat.sub_diag by lia.
    + specialize (IH (pre ++ [X])). rewrite length_app in IH. cbn [length] in IH.
      rewrite Nat.add_1_r, <-!app_assoc in IH. cbn [app] in IH.
      destruct (entries_get _ _) as [s|].
      * destruct IH as [IH1 IH2]. cbn [fmap list_fmap fst snd]. by rewrite IH1, IH2.
      * destruct IH as [Hk ->]. split; [|done]. by apply not_elem_of_cons.
Qed.

Lemma entries_get_snoc_new k v (es : list (key * loc)) :
  entries_get k es = None → entries_get k (es ++ [(k, v)]) = Some v.
Proof.
  induction es as [|[k' v'] es IH]; cbn.
  - by rewrite decide_True.
  - case_decide; [done|]. apply IH.
Qed.

Lemma contents_keys h S : (contents h S).*1 = (maps h !!! S).*1.
Proof. unfold contents. rewrite <-list_fmap_compose. by apply list_fmap_ext. Qed.

Lemma contents_sets h S : (contents h S).*2 = (λ e, sets h !!! e.2) <$> maps h !!! S.
Proof. unfold contents. rewrite <-list_fmap_compose. by apply list_fmap_ext. Qed.

(** What [update] does on a bucket map: it builds a new map and new sets
    at the end of the heap, holding the [updated] buckets. *)
Lemma update_run h S card difficulty :
  BucketMap h S →
  update S card difficulty h =
  (Normal (length (maps h)),
   {| sets := sets h ++ (updated card difficulty (contents h S)).*2;
      maps := maps h ++
              [zip (updated card difficulty (contents h S)).*1
                   (seq (length (sets h)) (length (updated card difficulty (contents h S))))] |}).
Proof.
  intros (Halloc & Hnd & _ & Hss). unfold update.
  rewrite bind_run, new_Map_run. cbn [fst snd].
  rewrite bind_run, Map_entries_run. cbn [fst snd sets maps].
  rewrite lookup_total_app_l by done.
  rewrite bind_run, (copy_loop _ _ []); cbn [sets maps app fst snd];
    [|by apply list_lookup_middle|done|done].
  rewrite insert_app_r_alt, Nat.sub_diag by lia. cbn [insert list_insert].
  rewrite bind_run, Map_entries_run. cbn [fst snd sets maps].
  rewrite list_lookup_total_middle by done.
  rewrite <-contents_sets, <-contents_keys.
  replace (length (maps h !!! S)) with (length (contents h S))
    by (unfold contents; apply length_fmap).
  unfold updated. set (bs := contents h S).
  rewrite bind_run, search_loop. cbn [fst snd].
  set (r := remove_first card (bucket (-1)) bs).
  fold (destination difficulty r.1). set (dest := destination difficulty r.1).
  assert (Hkeys : bs.*1 = r.2.*1) by (symmetry; apply remove_first_keys).
  assert (Hlen : length bs = length r.2).
  { by rewrite <-(length_fmap fst bs), Hkeys, length_fmap. }
  rewrite Hkeys, Hlen.
  pose proof (file_loop card dest r.2 (sets h)) as Hfile.
  rewrite bind_run, Map_has_run. cbn [fst snd sets maps].
  rewrite list_lookup_total_middle by done.
  destruct (entries_get dest _) as [s|] eqn:Hget.
  - destruct Hfile as [Hsets Hk]. rewrite bool_decide_true by done. cbn [negb]. run.
    rewrite list_lookup_total_middle by done. rewrite Hget. run.
    rewrite Hsets, Hk. do 5 f_equal.
    by rewrite <-(length_fmap fst (file_card _ _ _)), Hk, length_fmap.
  - destruct Hfile as [Hk Hfile]. rewrite bool_decide_false by (by intros []). cbn [negb]. run.
    rewrite list_lookup_total_middle by done.
    rewrite insert_app_r_alt, Nat.sub_diag by lia. cbn [insert list_insert].
    rewrite list_lookup_total_middle by done.
    rewrite entries_set_new by (by rewrite fst_zip by (rewrite length_seq, length_fmap; lia)).
    rewrite entries_get_snoc_new by done. run.
    rewrite Hfile, !fmap_app, !length_app, !length_fmap. cbn [fmap list_fmap fst snd length].
    rewrite (app_assoc (sets h)), list_lookup_total_middle
      by (rewrite !length_app, !length_fmap; done).
    rewrite insert_app_r_alt by (rewrite !length_app, !length_fmap; lia).
    rewrite !length_app, !length_fmap, Nat.sub_diag. cbn [insert list_insert].
    rewrite <-app_assoc. do 4 f_equal.
    rewrite Nat.add_1_r, seq_S, zip_with_app by (by rewrite length_seq, length_fmap).
    done.
Qed.

Lemma members_contents h S k : members h S k = default ∅ (bucket_of k (contents h S)).
Proof.
  unfold members, contents. induction (maps h !!! S) as [|[k' s] es IH]; cbn; [done|].
  by case_decide.
Qed.

Lemma contents_new (U : list (key * gset Card)) : ∀ (ss : list (gset Card)),
  (λ e : key * loc, (e.1, (ss ++ U.*2) !!! e.2)) <$> zip U.*1 (seq (length ss) (length U)) = U.
Proof.
  induction U as [|[k X] U IH]; intros ss; cbn [fmap list_fmap length seq zip zip_with fst snd];
    [done|].
  rewrite list_lookup_total_middle by done. f_equal.
  specialize (IH (ss ++ [X])). rewrite length_app, <-app_assoc in IH. cbn in IH.
  by rewrite Nat.add_1_r in IH.
Qed.

Lemma bucket_of_file_card card k k' bs :
  bucket_of k' (file_card card k bs) =
  if decide (k' = k) then Some (default ∅ (bucket_of k bs) ∪ {[card]}) else bucket_of k' bs.
Proof.
  induction bs as [|[k0 X] bs IH]; cbn.
  - by repeat case_decide; subst.
  - destruct (decide (k0 = k)) as [->|Hne]; cbn.
    + by repeat case_decide; subst.
    + rewrite IH. by repeat case_decide; subst.
Qed.

Lemma file_card_keys card k bs :
  (file_card card k bs).*1 = bs.*1 ++ (if decide (k ∈ bs.*1) then [] else [k]).
Proof.
  induction bs as [|[k0 X] bs IH]; cbn.
  - rewrite decide_False; [done|]. by intros ?%elem_of_nil.
  - destruct (decide (k0 = k)) as [->|Hne]; cbn.
    + rewrite decide_True by left. by rewrite app_nil_r.
    + rewrite IH. f_equal. destruct (decide (k ∈ bs.*1)).
      * by rewrite decide_True by (by right).
      * rewrite decide_False; [done|]. by intros [?|?]%elem_of_cons.
Qed.

Lemma bucket_of_fmap (f : gset Card → gset Card) k bs :
  bucket_of k ((λ b, (b.1, f b.2)) <$> bs) = f <$> bucket_of k bs.
Proof. induction bs as [|[k0 X] bs IH]; cbn; [done|]. by case_decide. Qed.

(** With each card in at most one bucket, taking [card] out of the first
    bucket that holds it takes it out of every bucket. *)
Lemma remove_first_one_bucket card cur0 bs :
  one_bucket_per_card bs →
  (remove_first card cur0 bs).2 = (λ b, (b.1, b.2 ∖ {[card]})) <$> bs.
Proof.
  induction bs as [|[k X] bs IH]; cbn; [done|]. intros [Hdisj Hone].
  destruct (decide (card ∈ X)) as [Hin|Hin]; cbn.
  - f_equal. clear IH Hone. induction bs as [|[k' X'] bs IH]; cbn; [done|].
    apply Forall_cons in Hdisj as [Hd Hdisj]. cbn in Hd. rewrite <-IH by done.
    do 2 f_equal. set_solver.
  - rewrite IH by done. do 2 f_equal. set_solver.
Qed.

Lemma remove_first_current h card cur0 (es : list (key * loc)) :
  (remove_first card cur0 ((λ e, (e.1, sets h !!! e.2)) <$> es)).1 =
  default cur0 (first_bucket h es card).
Proof. induction es as [|[k s] es IH]; cbn; [done|]. by case_decide. Qed.

Lemma first_bucket_key h es card k : first_bucket h es card = Some k → k ∈ es.*1.
Proof.
  induction es as [|[k' s] es IH]; cbn; [done|]. case_decide.
  - intros [= ->]. left.
  - right. auto.
Qed.

(** For the three outcomes and a card whose bucket, if any, has a bucket
    number below 2^53, the [switch] yields the bucket the specification
    names: up to there the double [currentBucket + 1] is the next
    integer. *)
Lemma destination_bucket difficulty (prior : option key) :
  difficulty ≠ Unrecognized →
  from_option is_bucket_number True prior →
  from_option (λ k, key_number k < 9007199254740992) True prior →
  destination difficulty (default (bucket (-1)) prior) =
  bucket (destination_number difficulty (key_number <$> prior)).
Proof.
  intros Hd Hprior Hbelow. destruct prior as [k|]; cbn in *.
  - apply is_bucket_number_inv in Hprior as (n & -> & Hn). cbn in Hbelow.
    destruct difficulty; cbn; try done; rewrite decide_False; try done;
      try (intros [= ?]; lia).
    unfold bucket. by rewrite double_add_exact by lia.
  - by destruct difficulty.
Qed.

(** For the three outcomes the [switch] yields a bucket number, whatever
    the rounding of [currentBucket + 1]. *)
Lemma destination_is_bucket_number difficulty (prior : option key) :
  difficulty ≠ Unrecognized →
  from_option is_bucket_number True prior →
  is_bucket_number (destination difficulty (default (bucket (-1)) prior)).
Proof.
  intros Hd Hprior. destruct prior as [k|]; cbn in *.
  - apply is_bucket_number_inv in Hprior as (n & -> & Hn).
    destruct difficulty; cbn; try done; rewrite decide_False; try done;
      try (intros [= ?]; lia).
    cbn. apply round_to_double_lower; lia.
  - by destruct difficulty.
Qed.

Lemma keys_below_mono (bound bound' : Z) h S :
  bound ≤ bound' → keys_below bound h S → keys_below bound' h S.
Proof.
  intros Hle HS. unfold keys_below in *. eapply Forall_impl; [exact HS|].
  intros k Hk. cbn in *. lia.
Qed.

Lemma first_bucket_below bound h S c :
  keys_below bound h S →
  from_option (λ k, key_number k < bound) True (first_bucket h (maps h !!! S) c).
Proof.
  intros Hbelow. destruct (first_bucket _ _ _) as [k|] eqn:Hprior; cbn; [|done].
  unfold keys_below in Hbelow. rewrite Forall_forall in Hbelow.
  by eapply Hbelow, first_bucket_key.
Qed.

(** C1, as the code has it: bucket numbers are doubles, and from 2^53 on
    the double [currentBucket + 1] is no longer the next integer.  For a
    map whose keys are below 2^53 and an outcome among Wrong, Hard and
    Easy, [update S c outcome] returns a map in which [c] is out of the
    bucket of [S] that held it and is filed in exactly one bucket: bucket
    0 when the outcome is Wrong; the bucket it was in (0 if it was in
    none) when it is Hard; the bucket after the one it was in (0 if it was
    in none) when it is Easy.  The other cards stay where they were, and
    the map has the keys of [S], with the destination added at the end if
    it was not a key. *)
Theorem update_files_card (h : Heap) (S : loc) (c : Card) (outcome : AnswerDifficulty) :
  BucketMap h S →
  one_bucket_per_card (contents h S) →
  keys_below 9007199254740992 h S →
  outcome ≠ Unrecognized →
  ∃ (R : loc) (h' : Heap),
    update S c outcome h = (Normal R, h') ∧
    let prior := first_bucket h (maps h !!! S) c in
    let dest := bucket (destination_number outcome (key_number <$> prior)) in
    (∀ k, c ∈ members h' R k ↔ k = dest) ∧
    (∀ k, members h' R k =
          if decide (k = dest) then members h S k ∖ {[c]} ∪ {[c]}
          else members h S k ∖ {[c]}) ∧
    (∀ k, k ≠ dest → prior ≠ Some k → members h' R k = members h S k) ∧
    (maps h' !!! R).*1 =
      (maps h !!! S).*1 ++ (if decide (dest ∈ (maps h !!! S).*1) then [] else [dest]).
Proof.
  intros HS Hone Hbelow Hd. eexists _, _. split; [by apply update_run|].
  destruct HS as (_ & Hnd & Hks & _). cbn zeta.
  set (prior := first_bucket h (maps h !!! S) c).
  set (dest := bucket _).
  assert (Hdest : destination outcome (remove_first c (bucket (-1)) (contents h S)).1 = dest).
  { unfold contents. rewrite remove_first_current.
    apply destination_bucket; [done| |by apply first_bucket_below].
    fold prior. destruct prior as [k|] eqn:Hprior; cbn; [|done].
    eapply Forall_forall in Hks; [exact Hks|]. by eapply first_bucket_key. }
  assert (Hmem : ∀ k, members {| sets := sets h ++ (updated c outcome (contents h S)).*2;
        maps := maps h ++ [zip (updated c outcome (contents h S)).*1
          (seq (length (sets h)) (length (updated c outcome (contents h S))))] |}
        (length (maps h)) k =
      if decide (k = dest) then members h S k ∖ {[c]} ∪ {[c]} else members h S k ∖ {[c]}).
  { intros k. rewrite !members_contents. unfold contents at 1. cbn [sets maps].
    rewrite list_lookup_total_middle, contents_new by done.
    unfold updated. rewrite Hdest, bucket_of_file_card, remove_first_one_bucket by done.
    rewrite !(bucket_of_fmap (λ X, X ∖ {[c]})). destruct (decide (k = dest)) as [->|].
    - destruct (bucket_of dest _); cbn; [done|set_solver].
    - destruct (bucket_of k _); cbn; [done|set_solver]. }
  split; [|split; [exact Hmem|split]].
  - intros k. rewrite Hmem. case_decide; set_solver.
  - intros k Hk Hprior. rewrite Hmem, decide_False by done.
    assert (c ∉ members h S k); [|set_solver]. unfold members.
    destruct (entries_get k _) as [s|] eqn:Hs; cbn; [|set_solver].
    intros Hin. apply Hprior. apply entries_get_Some in Hs; [|done].
    by eapply first_bucket_own.
  - cbn [maps]. rewrite list_lookup_total_middle by done.
    rewrite fst_zip by (rewrite length_seq, length_fmap; lia).
    unfold updated. rewrite Hdest, file_card_keys, remove_first_keys, contents_keys. done.
Qed.

(** C5, as the code has it: [update] reports no invalid-input error.  For
    an outcome value that is none of Wrong, Hard and Easy (the type
    [AnswerDifficulty] admits no such value) no case of the [switch]
    applies, the destination stays [undefined], and [update] returns a new
    map in which the card is filed under the key [undefined], added after
    the keys of [S]. *)
Theorem update_unrecognized_outcome (h : Heap) (S : loc) (c : Card) :
  BucketMap h S →
  ∃ (R : loc) (h' : Heap),
    update S c Unrecognized h = (Normal R, h') ∧
    c ∈ members h' R KUndefined ∧
    (maps h' !!! R).*1 = (maps h !!! S).*1 ++ [KUndefined].
Proof.
  intros HS. eexists _, _. split; [by apply update_run|].
  destruct HS as (_ & _ & Hks & _). split.
  - rewrite members_contents. unfold contents. cbn [sets maps].
    rewrite list_lookup_total_middle, contents_new by done.
    unfold updated. cbn [destination]. rewrite bucket_of_file_card, decide_True by done.
    cbn. set_solver.
  - cbn [maps]. rewrite list_lookup_total_middle by done.
    rewrite fst_zip by (rewrite length_seq, length_fmap; lia).
    unfold updated. cbn [destination].
    rewrite file_card_keys, remove_first_keys, contents_keys, decide_False; [done|].
    intros Hin. rewrite Forall_forall in Hks. by apply Hks in Hin.
Qed.

(** C6: [update S c outcome] leaves its input as it was.  The map it
    returns is a new object whose value sets are new objects; every map
    and every set that was in the heap before the call is unchanged, and
    so [S] holds the same keys and the same cards as before. *)
Theorem update_leaves_input_unchanged (h : Heap) (S : loc) (c : Card)
    (outcome : AnswerDifficulty) :
  BucketMap h S →
  ∃ (R : loc) (h' : Heap),
    update S c outcome h = (Normal R, h') ∧
    (length (maps h) ≤ R)%nat ∧
    Forall (λ s, (length (sets h) ≤ s)%nat) (maps h' !!! R).*2 ∧
    (∀ m, (m < length (maps h))%nat → maps h' !! m = maps h !! m) ∧
    (∀ s, (s < length (sets h))%nat → sets h' !! s = sets h !! s) ∧
    contents h' S = contents h S.
Proof.
  intros HS. eexists _, _. split; [by apply update_run|].
  destruct HS as (Halloc & _ & _ & Hss). cbn [sets maps].
  split; [done|]. split; [|split; [|split]].
  - rewrite list_lookup_total_middle by done.
    rewrite snd_zip by (rewrite length_seq, length_fmap; lia).
    apply Forall_forall. intros s Hs%elem_of_seq. lia.
  - intros m Hm. by rewrite lookup_app_l.
  - intros s Hs. by rewrite lookup_app_l.
  - unfold contents. cbn [sets maps]. rewrite lookup_total_app_l by done.
    apply list_fmap_ext. intros i [k s] Hi. cbn. f_equal.
    rewrite lookup_total_app_l; [done|]. eapply Forall_forall in Hss; [exact Hss|].
    apply list_elem_of_fmap. exists (k, s). split; [done|]. by eapply list_elem_of_lookup_2.
Qed.

(** * The properties on the test fixtures *)

Import Examples.

Lemma scenario_BucketMap : BucketMap scenario 0.
Proof. compute_done. Defined.

Lemma scenario_one_bucket_per_card : one_bucket_per_card (contents scenario 0).
Proof. compute_done. Defined.

Lemma three_cards_BucketMap : BucketMap three_cards 0.
Proof. compute_done. Defined.

Lemma three_cards_one_bucket_per_card : one_bucket_per_card (contents three_cards 0).
Proof. compute_done. Defined.

Lemma after_wrong_BucketMap : BucketMap after_wrong 0.
Proof. compute_done. Defined.

Lemma scenario_keys_below : keys_below 4294967294 scenario 0.
Proof. compute_done. Defined.

Lemma scenario_keys_fit_array : keys_below 4294967295 scenario 0.
Proof. compute_done. Defined.

Lemma three_cards_keys_fit_array : keys_below 4294967295 three_cards 0.
Proof. compute_done. Defined.

Lemma three_cards_sum : bucket_number_sum (contents three_cards 0) ≤ 9007199254740992.
Proof. compute_done. Defined.

Lemma at_limit_BucketMap : BucketMap at_limit 0.
Proof. compute_done. Defined.

Lemma beyond_array_BucketMap : BucketMap beyond_array 0.
Proof. compute_done. Defined.

Lemma big_sum_BucketMap : BucketMap big_sum 0.
Proof. compute_done. Defined.

(** C1 on the example of the specification: answered Easy, [cardA] moves
    from bucket 1 to bucket 2. *)
Lemma update_files_card_witness :
  BucketMap scenario 0 ∧ one_bucket_per_card (contents scenario 0) ∧
  keys_below 9007199254740992 scenario 0 ∧ Easy ≠ Unrecognized ∧
  ∃ (R : loc) (h' : Heap),
    update 0 cardA Easy scenario = (Normal R, h') ∧
    ∀ k, cardA ∈ members h' R k ↔ k = bucket 2.
Proof.
  assert (Hbelow : keys_below 9007199254740992 scenario 0) by compute_done.
  split; [exact scenario_BucketMap|]. split; [exact scenario_one_bucket_per_card|].
  split; [exact Hbelow|]. split; [discriminate|].
  destruct (update_files_card scenario 0 cardA Easy scenario_BucketMap
              scenario_one_bucket_per_card Hbelow) as (R & h' & Hrun & Hin & _); [discriminate|].
  exists R, h'. split; [exact Hrun|exact Hin].
Defined.

(** C1: a card in bucket 2^53, answered Easy, stays in bucket 2^53: the
    double 2^53 + 1 is 2^53, and no bucket 2^53 + 1 is made. *)
Lemma update_files_card_counterexample :
  BucketMap at_limit 0 ∧ one_bucket_per_card (contents at_limit 0) ∧
  first_bucket at_limit (maps at_limit !!! 0%nat) cardA = Some (bucket 9007199254740992) ∧
  ∃ (R : loc) (h' : Heap),
    update 0 cardA Easy at_limit = (Normal R, h') ∧
    cardA ∈ members h' R (bucket 9007199254740992) ∧
    (cardA ∉ members h' R (bucket (9007199254740992 + 1))) ∧
    (maps h' !!! R).*1 = [bucket 9007199254740992].
Proof.
  split; [exact at_limit_BucketMap|]. split; [compute_done|]. split; [by vm_compute|].
  exists 1%nat, (update 0 cardA Easy at_limit).2. split; [|split; [|split]].
  - vm_compute. reflexivity.
  - compute_done.
  - compute_done.
  - vm_compute. reflexivity.
Qed.

(** C2 on a two-bucket array, day 1. *)
Lemma practice_selects_bucket_of_day_witness :
  0 ≤ 1 ∧
  ∃ due : gset Card,
    practice [Some 0%nat; Some 1%nat] 1 scenario =
      (2%nat, {| sets := sets scenario ++ [due]; maps := maps scenario |}) ∧
    due = {[cardA]}.
Proof.
  split; [lia|].
  destruct (practice_selects_bucket_of_day scenario [Some 0%nat; Some 1%nat] 1)
    as (due & Hrun & _ & Hday & _); [lia|].
  exists due. split; [exact Hrun|]. apply Hday. cbn. lia.
Defined.

(** C3 on the example map: the array has length 2. *)
Lemma toBucketSets_dense_form_witness :
  BucketMap scenario 0 ∧ keys_below 4294967295 scenario 0 ∧
  ∃ (maxB : Z) (arr : BucketArray) (h' : Heap),
    toBucketSets 0 scenario = (Normal arr, h') ∧ Z.of_nat (length arr) = maxB + 1.
Proof.
  assert (Hbelow : keys_below 4294967295 scenario 0) by compute_done.
  split; [exact scenario_BucketMap|]. split; [exact Hbelow|].
  destruct (toBucketSets_dense_form scenario 0 scenario_BucketMap Hbelow) as [_ Hdense].
  destruct Hdense as (maxB & arr & h' & Hrun & _ & _ & Hlen & _); [discriminate|].
  exists maxB, arr, h'. split; [exact Hrun|exact Hlen].
Defined.

(** C3: the map [{4294967295: {cardA}}] has a key, but [toBucketSets]
    returns no array of length 4294967296 for it: [new Array(4294967296)]
    throws a [RangeError]. *)
Lemma toBucketSets_dense_form_counterexample :
  BucketMap beyond_array 0 ∧
  (maps beyond_array !!! 0%nat).*1 = [bucket 4294967295] ∧
  toBucketSets 0 beyond_array = (Throw RangeError, beyond_array).
Proof.
  split; [exact beyond_array_BucketMap|]. split; [reflexivity|].
  vm_compute. reflexivity.
Qed.

(** C4 on the example of the specification: three cards in the buckets 0,
    1 and 2. *)
Lemma computeProgress_statistics_witness :
  BucketMap three_cards 0 ∧ one_bucket_per_card (contents three_cards 0) ∧
  bucket_number_sum (contents three_cards 0) ≤ 9007199254740992 ∧
  computeProgress 0 [] three_cards =
    ({| totalCards := 3; masteredCards := 1; strugglingCards := 1;
        averageBucket := Num 1%Q |}, three_cards).
Proof.
  assert (Hsum : bucket_number_sum (contents three_cards 0) ≤ 9007199254740992)
    by compute_done.
  split; [exact three_cards_BucketMap|]. split; [exact three_cards_one_bucket_per_card|].
  split; [exact Hsum|].
  exact (computeProgress_statistics three_cards 0 [] three_cards_BucketMap
           three_cards_one_bucket_per_card Hsum).
Defined.

(** C4: in the map [{9007199254740992: {c1}, 1: {c2, c3}}] the bucket
    numbers of the three cards sum to 2^53 + 2, but the sum that
    [computeProgress] keeps stays at the double 2^53 when 1 is added to
    it, twice; the average it reports is the double of 2^53 / 3, not that
    of (2^53 + 2) / 3, and is more than 1/2 below the quotient. *)
Lemma computeProgress_statistics_counterexample :
  BucketMap big_sum 0 ∧ one_bucket_per_card (contents big_sum 0) ∧
  bucket_number_sum (contents big_sum 0) = 9007199254740992 + 2 ∧
  total_cards (contents big_sum 0) = 3 ∧
  averageBucket (eval (computeProgress 0 []) big_sum) = Num (6004799503160661 # 2) ∧
  double_div (9007199254740992 + 2) 3 = (6004799503160663 # 2)%Q ∧
  ((6004799503160661 # 2) + (1 # 2) < (9007199254740992 + 2) # 3)%Q.
Proof.
  split; [exact big_sum_BucketMap|]. split; [compute_done|].
  split; [by vm_compute|]. split; [by vm_compute|]. split; [by vm_compute|].
  split; [by vm_compute|]. by vm_compute.
Qed.

(** C5: on the example map, an unrecognized outcome raises no error; the
    card ends under the key [undefined]. *)
Lemma update_unrecognized_counterexample :
  ∃ (R : loc) (h' : Heap),
    update 0 cardA Unrecognized scenario = (Normal R, h') ∧
    cardA ∈ members h' R KUndefined ∧
    ¬ ∃ (e : Error) (h'' : Heap), update 0 cardA Unrecognized scenario = (Throw e, h'').
Proof.
  exists 1%nat, (update 0 cardA Unrecognized scenario).2. split; [|split].
  - vm_compute. reflexivity.
  - compute_done.
  - intros (e & h'' & Hthrow). vm_compute in Hthrow. discriminate.
Qed.

(** C5, as the code has it, on the example map. *)
Lemma update_unrecognized_outcome_witness :
  BucketMap scenario 0 ∧
  ∃ (R : loc) (h' : Heap),
    update 0 cardA Unrecognized scenario = (Normal R, h') ∧
    cardA ∈ members h' R KUndefined.
Proof.
  split; [exact scenario_BucketMap|].
  destruct (update_unrecognized_outcome scenario 0 cardA scenario_BucketMap)
    as (R & h' & Hrun & Hin & _).
  exists R, h'. split; [exact Hrun|exact Hin].
Defined.

(** C6 on the example map: after a Wrong answer the input map still holds
    [cardA] in bucket 1. *)
Lemma update_leaves_input_unchanged_witness :
  BucketMap scenario 0 ∧
  ∃ (R : loc) (h' : Heap),
    update 0 cardA Wrong scenario = (Normal R, h') ∧ contents h' 0 = contents scenario 0.
Proof.
  split; [exact scenario_BucketMap|].
  destruct (update_leaves_input_unchanged scenario 0 cardA Wrong scenario_BucketMap)
    as (R & h' & Hrun & _ & _ & _ & _ & Hsame).
  exists R, h'. split; [exact Hrun|exact Hsame].
Defined.

(** C7: in the map [{0: {cardA}, 1: {}}] the largest occupied bucket is 0,
    so the dense-form invariant asks for length 1, but [toBucketSets]
    returns an array of length 2. *)
Lemma toBucketSets_length_counterexample :
  BucketMap after_wrong 0 ∧
  ∃ (arr : BucketArray) (h' : Heap),
    toBucketSets 0 after_wrong = (Normal arr, h') ∧
    occupied h' arr = [0%nat] ∧
    occupied_length h' arr = 1%nat ∧
    length arr = 2%nat ∧
    length arr ≠ occupied_length h' arr.
Proof.
  split; [exact after_wrong_BucketMap|].
  exists [Some 0%nat; Some 1%nat], (toBucketSets 0 after_wrong).2.
  split; [|split; [|split; [|split]]].
  - vm_compute. reflexivity.
  - vm_compute. reflexivity.
  - vm_compute. reflexivity.
  - reflexivity.
  - vm_compute. discriminate.
Qed.

(** C7, as the code has it, on the example map: the largest key is 1 and
    the array has length 2. *)
Lemma toBucketSets_length_witness :
  BucketMap scenario 0 ∧ keys_below 4294967295 scenario 0 ∧
  ∃ (arr : BucketArray) (h' : Heap),
    toBucketSets 0 scenario = (Normal arr, h') ∧ Z.of_nat (length arr) = 1 + 1.
Proof.
  assert (Hbelow : keys_below 4294967295 scenario 0) by compute_done.
  split; [exact scenario_BucketMap|]. split; [exact Hbelow|].
  destruct (toBucketSets_length scenario 0 scenario_BucketMap Hbelow)
    as (arr & h' & Hrun & _ & _ & Hlargest).
  exists arr, h'. split; [exact Hrun|]. apply (Hlargest 1).
  - compute_done.
  - intros n Hn. cbn in Hn. apply elem_of_cons in Hn as [[= ->]|Hn]; [lia|].
    apply list_elem_of_singleton in Hn as [= ->]. lia.
Defined.

(** C8 on the example map: only bucket 1 has cards. *)
Lemma getBucketRange_of_toBucketSets_witness :
  BucketMap scenario 0 ∧ keys_below 4294967295 scenario 0 ∧
  ∃ (arr : BucketArray) (h' : Heap),
    toBucketSets 0 scenario = (Normal arr, h') ∧
    getBucketRange arr h' = (Some {| minBucket := 1; maxBucket := 1 |}, h').
Proof.
  assert (Hbelow : keys_below 4294967295 scenario 0) by compute_done.
  split; [exact scenario_BucketMap|]. split; [exact Hbelow|].
  exact (getBucketRange_of_toBucketSets scenario 0 scenario_BucketMap Hbelow).
Defined.

(** C8: in the map [{4294967295: {cardA}}] the smallest and the largest
    key with cards are 4294967295, but there is no array to take the range
    of: [toBucketSets] throws. *)
Lemma getBucketRange_of_toBucketSets_counterexample :
  BucketMap beyond_array 0 ∧
  key_range (occupied_keys beyond_array 0) =
    Some {| minBucket := 4294967295; maxBucket := 4294967295 |} ∧
  ¬ ∃ (arr : BucketArray) (h' : Heap), toBucketSets 0 beyond_array = (Normal arr, h').
Proof.
  split; [exact beyond_array_BucketMap|]. split; [by vm_compute|].
  intros (arr & h' & Hrun). vm_compute in Hrun. discriminate.
Qed.

(** C4 where the quotient rounds: of three cards one is in bucket 1; the
    average is the double 0.3333333333333333, that is 6004799503160661 /
    2^54. *)
Example computeProgress_one_third :
  eval (let* m := build [(0, [1%positive; 2%positive]); (1, [3%positive])] in
        computeProgress m [])
    empty_heap =
  {| totalCards := 3; masteredCards := 0; strugglingCards := 2;
     averageBucket := Num (6004799503160661 # 18014398509481984) |}.
Proof. vm_compute. reflexivity. Qed.

(** * The unit tests of the repository, run on the embedding *)

(** [toBucketSets]: "should handle multiple buckets with gaps". *)
Example test_toBucketSets_gaps :
  let '(r, h) := (let* m := build [(0, [1%positive]); (2, [2%positive])] in
                  toBucketSets m) empty_heap in
  from_option (λ a, show_array a h) [] (match r with Normal a => Some a | Throw _ => None end) =
  [Some [1%positive]; Some []; Some [2%positive]].
Proof. vm_compute. reflexivity. Qed.

(** [getBucketRange]: "should handle multiple non-empty buckets". *)
Example test_getBucketRange_multiple :
  eval (getBucketRange [Some 0%nat; Some 1%nat; Some 0%nat; Some 2%nat])
    {| sets := [∅; {[1%positive]}; {[2%positive]}]; maps := [] |} =
  Some {| minBucket := 1; maxBucket := 3 |}.
Proof. vm_compute. reflexivity. Qed.

(** [practice]: "should handle day number larger than bucket count". *)
Example test_practice_large_day :
  let '(r, h) := practice [Some 0%nat; Some 1%nat] 5
                   {| sets := [{[1%positive]}; {[2%positive]}]; maps := [] |} in
  elements (sets h !!! r) = [].
Proof. vm_compute. reflexivity. Qed.

(** [update]: "should move card up one bucket on easy answer". *)
Example test_update_easy :
  let '(r, h) := update 0 cardA Easy scenario in
  from_option (λ m, show m h) [] (match r with Normal m => Some m | Throw _ => None end) =
  [(bucket 0, []); (bucket 1, []); (bucket 2, [cardA])].
Proof. vm_compute. reflexivity. Qed.

(** [update]: "should handle card not in any bucket". *)
Example test_update_unseen :
  let '(r, h) := update 0 7%positive Easy scenario in
  from_option (λ m, show m h) [] (match r with Normal m => Some m | Throw _ => None end) =
  [(bucket 0, [7%positive]); (bucket 1, [cardA])].
Proof. vm_compute. reflexivity. Qed.

(** [getHint]: "should return first character of answer for short hint"
    and "should return empty string for empty hint". *)
Example test_getHint :
  getHint {| front := "Q"; back := Some "Answer"; hint := Some "H"; tags := [] |} = "A" ∧
  getHint {| front := "Q"; back := Some "A"; hint := Some ""; tags := [] |} = "".
Proof. split; reflexivity. Qed.

(** [computeProgress]: "should handle cards with no history"; the average
    is 1/2. *)
Example test_computeProgress_no_history :
  eval (let* m := build [(0, [1%positive]); (1, [2%positive])] in computeProgress m [])
    empty_heap =
  {| totalCards := 2; masteredCards := 0; strugglingCards := 1;
     averageBucket := Num (1 # 2) |}.
Proof. vm_compute. reflexivity. Qed.

(** * Further properties *)

(** ** getBucketRange on any array *)

(** X1: on any array, [getBucketRange] leaves the heap as it is; it
    returns [undefined] exactly when no set of the array has cards, and
    otherwise two indices of the array whose sets have cards and between
    which every set with cards lies. *)
Theorem getBucketRange_first_and_last (h : Heap) (B : BucketArray) :
  ∃ r : option BucketRange,
    getBucketRange B h = (r, h) ∧
    match r with
    | None => ∀ i, bucket_members h B i = ∅
    | Some r =>
        ∃ i j : nat,
          minBucket r = Z.of_nat i ∧ maxBucket r = Z.of_nat j ∧
          (i ≤ j < length B)%nat ∧
          bucket_members h B i ≠ ∅ ∧ bucket_members h B j ≠ ∅ ∧
          ∀ l, bucket_members h B l ≠ ∅ → (i ≤ l ≤ j)%nat
    end.
Proof.
  eexists. split; [apply getBucketRange_run|]. unfold occupied at 1 2.
  destruct (head _) as [i|] eqn:Hhead.
  - destruct (last _) as [j|] eqn:Hlast.
    2:{ apply last_None in Hlast. by rewrite Hlast in Hhead. }
    pose proof (filter_seq_head _ _ _ _ Hhead) as Hmin.
    pose proof (filter_seq_last _ _ _ _ Hlast) as Hmax.
    apply head_Some_elem_of in Hhead. apply last_Some_elem_of in Hlast.
    exists i, j. split; [done|]. split; [done|].
    pose proof (Hmin _ Hlast). pose proof Hlast as Hj.
    apply list_elem_of_filter in Hj as [_ Hj%elem_of_seq].
    fold (occupied h B) in Hhead, Hlast, Hmin, Hmax.
    split; [lia|]. split; [by apply elem_of_occupied|]. split; [by apply elem_of_occupied|].
    intros l Hl%elem_of_occupied. split; [by apply Hmin|by apply Hmax].
  - apply head_None in Hhead. fold (occupied h B) in Hhead. intros i.
    destruct (decide (bucket_members h B i = ∅)) as [|Hne]; [done|].
    apply elem_of_occupied in Hne. rewrite Hhead in Hne. by apply elem_of_nil in Hne.
Qed.

(** ** practice on the array of a map *)

(** What [practice] does on any array and any day. *)
Lemma practice_run h (B : BucketArray) (day : Z) :
  practice B day h =
  (length (sets h),
   {| sets := sets h ++ [if bool_decide (0 ≤ day < Z.of_nat (length B))
                         then bucket_members h B (Z.to_nat day) else ∅];
      maps := maps h |}).
Proof.
  unfold practice. rewrite bind_run, new_Set_run. cbn [fst snd].
  destruct (Z.eqb_spec day 0) as [->|Hne].
  - rewrite bind_run, add_all_run, ret_run. cbn [fst snd].
    rewrite Array_get_members by done. do 3 f_equal. case_bool_decide; [done|].
    unfold bucket_members. by rewrite lookup_ge_None_2 by (cbn; lia).
  - destruct (Z.ltb_spec day (Z.of_nat (length B))) as [Hlt|Hge].
    + rewrite bind_run, add_all_run, ret_run. cbn [fst snd]. do 3 f_equal.
      case_bool_decide; [by rewrite Array_get_members by lia|].
      unfold Array_get. by rewrite bool_decide_false by lia.
    + rewrite bind_run, !ret_run. cbn [fst snd]. by rewrite bool_decide_false by lia.
Qed.

(** X2: [practice] never returns a set of its array: the set it returns
    is a new object, so a card added to it is added to no bucket, and the
    buckets of the array keep their members. *)
Theorem practice_result_is_a_copy (h : Heap) (B : BucketArray) (day : Z) (c : Card) :
  Forall (λ b, from_option (λ s, (s < length (sets h))%nat) True b) B →
  let result := (practice B day h).1 in
  let h' := (practice B day h).2 in
  (Some result ∉ B) ∧
  ∀ i, bucket_members (Set_add result c h').2 B i = bucket_members h B i.
Proof.
  intros HB. rewrite practice_run. cbn [fst snd]. split.
  - intros Hin. rewrite Forall_forall in HB. apply HB in Hin. cbn in Hin. lia.
  - intros i. set (due := if bool_decide _ then _ else _).
    rewrite Set_add_run. unfold bucket_members.
    destruct (B !! i) as [[s|]|] eqn:Hi; [|done..]. cbn [fst snd sets maps].
    assert (s < length (sets h))%nat as Hs.
    { rewrite Forall_forall in HB. apply (HB (Some s)). by eapply list_elem_of_lookup_2. }
    rewrite list_lookup_total_insert_ne by lia. by rewrite lookup_total_app_l.
Qed.

(** [practice] on the array of a bucket map. *)
Lemma practice_dense_run (h : Heap) (S : loc) (day : Z) :
  BucketMap h S →
  keys_below 4294967295 h S →
  0 ≤ day →
  ∃ (arr : BucketArray) (h1 : Heap) (result : loc) (h2 : Heap),
    toBucketSets S h = (Normal arr, h1) ∧
    practice arr day h1 = (result, h2) ∧
    sets h2 !!! result = members h S (bucket day).
Proof.
  intros HS Hbelow Hday. destruct (decide (maps h !!! S = [])) as [Hnil|Hne].
  - exists [], h. eexists _, _. split; [unfold toBucketSets; run; by rewrite Hnil|].
    split; [apply practice_run|]. cbn [sets]. rewrite list_lookup_total_middle by done.
    rewrite bool_decide_false by (cbn; lia). unfold members. by rewrite Hnil.
  - destruct (toBucketSets_run h S HS Hbelow Hne) as (m & arr & Hrun & _ & _ & _ & _ & Hmem).
    eexists arr, _, _, _. split; [exact Hrun|]. split; [apply practice_run|].
    cbn [sets]. rewrite list_lookup_total_middle by done.
    rewrite <-(Z2Nat.id day), <-Hmem, Z2Nat.id by done. case_bool_decide; [done|].
    unfold bucket_members. by rewrite lookup_ge_None_2 by lia.
Qed.

(** X3: on a bucket map [S] whose keys are below 2^32 - 1, so that
    [toBucketSets] has an array for it, and a day [>= 0], [practice
    (toBucketSets S) day] holds exactly the cards that [S] files under the
    key [day], and none when [day] is no key of [S]. *)
Theorem practice_of_toBucketSets (h : Heap) (S : loc) (day : Z) :
  BucketMap h S →
  keys_below 4294967295 h S →
  0 ≤ day →
  ∃ (arr : BucketArray) (h1 : Heap) (result : loc) (h2 : Heap),
    toBucketSets S h = (Normal arr, h1) ∧
    practice arr day h1 = (result, h2) ∧
    sets h2 !!! result = members h S (bucket day).
Proof. apply practice_dense_run. Qed.

(** ** What update keeps *)

Lemma Forall_file_card (P : key * gset Card → Prop) card k bs :
  Forall P bs →
  (∀ X, P (k, X) → P (k, X ∪ {[card]})) →
  P (k, ∅ ∪ {[card]}) →
  Forall P (file_card card k bs).
Proof.
  intros Hbs Hadd Hnew. induction bs as [|[k' X] bs IH]; cbn.
  - by apply Forall_singleton.
  - apply Forall_cons in Hbs as [HX Hbs]. case_decide as Hk.
    + subst k'. apply Forall_cons. split; [by apply Hadd|done].
    + apply Forall_cons. split; [done|by apply IH].
Qed.

Lemma one_bucket_file_card card k bs :
  one_bucket_per_card bs →
  Forall (λ b, card ∉ b.2) bs →
  one_bucket_per_card (file_card card k bs).
Proof.
  induction bs as [|[k' X] bs IH]; cbn; [by split|].
  intros [Hdisj Hone] [HX Hcard]%Forall_cons. cbn in HX. case_decide as Hk; cbn.
  - split; [|done]. rewrite Forall_forall in Hdisj, Hcard. apply Forall_forall.
    intros b Hb. specialize (Hdisj _ Hb). specialize (Hcard _ Hb). set_solver.
  - split; [|by apply IH]. apply Forall_file_card; cbn; [done| |set_solver].
    intros Y HY. set_solver.
Qed.

Lemma one_bucket_remove card bs :
  one_bucket_per_card bs →
  one_bucket_per_card ((λ b, (b.1, b.2 ∖ {[card]})) <$> bs).
Proof.
  induction bs as [|[k X] bs IH]; cbn; [done|]. intros [Hdisj Hone]. split; [|by apply IH].
  rewrite Forall_fmap. eapply Forall_impl; [exact Hdisj|]. intros [k' Y]. cbn. set_solver.
Qed.

(** With distinct keys and each card in at most one bucket, the bucket
    that the search of [update] and [computeProgress] finds for a card is
    the bucket that holds it. *)
Lemma first_bucket_members h S c k :
  NoDup (maps h !!! S).*1 →
  one_bucket_per_card (contents h S) →
  first_bucket h (maps h !!! S) c = Some k ↔ c ∈ members h S k.
Proof.
  intros Hnd Hone. unfold members. split.
  - intros Hfirst.
    assert (∃ s, (k, s) ∈ maps h !!! S ∧ c ∈ sets h !!! s) as (s & Hin & Hc).
    { clear -Hfirst. induction (maps h !!! S) as [|[k' s'] es IH]; cbn in *; [done|].
      case_decide.
      - injection Hfirst as ->. exists s'. split; [left|done].
      - destruct (IH Hfirst) as (s & ? & ?). exists s. split; [by right|done]. }
    apply entries_get_Some in Hin; [|done]. by rewrite Hin.
  - destruct (entries_get k _) as [s|] eqn:Hs; cbn; [|set_solver].
    apply entries_get_Some in Hs; [|done]. intros Hc. by eapply first_bucket_own.
Qed.

Lemma destination_number_bounds outcome (prior : option Z) (bound : Z) :
  0 < bound →
  from_option (λ n, n < bound) True prior →
  destination_number outcome prior < bound + 1.
Proof. destruct outcome, prior as [n|]; cbn; lia. Qed.

(** The keys of the map that [update] returns are below what bounds the
    keys of [S] and the destination. *)
Lemma keys_below_updated (bound : Z) h S h' R c dest :
  contents h' R = file_card c dest ((λ b, (b.1, b.2 ∖ {[c]})) <$> contents h S) →
  keys_below bound h S →
  key_number dest < bound →
  keys_below bound h' R.
Proof.
  intros Hcontents HS Hdest. unfold keys_below in *.
  rewrite <-contents_keys, Hcontents, file_card_keys, <-list_fmap_compose.
  change (fst ∘ _) with (@fst key (gset Card)). rewrite contents_keys.
  apply Forall_app. split; [done|]. case_decide; [done|]. by apply Forall_singleton.
Qed.

(** What [update] returns for the three outcomes, on a bucket map that
    keeps each card in at most one bucket; the destination is the key that
    the [switch] computes, rounded where a double rounds. *)
Lemma update_result h S c outcome :
  BucketMap h S →
  one_bucket_per_card (contents h S) →
  outcome ≠ Unrecognized →
  ∃ (R : loc) (h' : Heap),
    update S c outcome h = (Normal R, h') ∧
    BucketMap h' R ∧
    one_bucket_per_card (contents h' R) ∧
    let dest := destination outcome
                  (default (bucket (-1)) (first_bucket h (maps h !!! S) c)) in
    (∀ k, members h' R k =
          if decide (k = dest) then members h S k ∖ {[c]} ∪ {[c]}
          else members h S k ∖ {[c]}) ∧
    contents h' R = file_card c dest ((λ b, (b.1, b.2 ∖ {[c]})) <$> contents h S).
Proof.
  intros HS Hone Hd. eexists _, _. split; [by apply update_run|].
  destruct HS as (Halloc & Hnd & Hks & Hss). cbn zeta.
  set (prior := first_bucket h (maps h !!! S) c).
  set (dest := destination _ _).
  assert (Hprior : from_option is_bucket_number True prior).
  { destruct prior as [k|] eqn:Hprior; cbn; [|done].
    eapply Forall_forall in Hks; [exact Hks|]. by eapply first_bucket_key. }
  assert (Hdest : destination outcome (remove_first c (bucket (-1)) (contents h S)).1 = dest).
  { unfold contents. by rewrite remove_first_current. }
  assert (HU : updated c outcome (contents h S) =
               file_card c dest ((λ b, (b.1, b.2 ∖ {[c]})) <$> contents h S)).
  { unfold updated. by rewrite Hdest, remove_first_one_bucket. }
  set (h' := {| sets := _; maps := _ |}).
  assert (Hcontents : contents h' (length (maps h)) = updated c outcome (contents h S)).
  { unfold contents at 1, h'. cbn [sets maps].
    by rewrite list_lookup_total_middle, contents_new. }
  assert (Hentries : maps h' !!! length (maps h) =
    zip (updated c outcome (contents h S)).*1
        (seq (length (sets h)) (length (updated c outcome (contents h S))))).
  { unfold h'. cbn [maps]. by rewrite list_lookup_total_middle. }
  split; [|split; [|split; [|by rewrite Hcontents]]].
  - split; [unfold h'; cbn [maps]; rewrite length_app; cbn; lia|].
    rewrite Hentries, fst_zip, snd_zip by (rewrite length_seq, length_fmap; lia).
    rewrite HU, file_card_keys, <-list_fmap_compose.
    change (fst ∘ _) with (@fst key (gset Card)). rewrite contents_keys.
    split; [|split].
    + case_decide; [by rewrite app_nil_r|]. apply NoDup_app. split; [done|].
      split; [|apply NoDup_singleton]. by intros k Hk ->%list_elem_of_singleton.
    + apply Forall_app. split; [done|]. case_decide; [done|]. apply Forall_singleton.
      by apply destination_is_bucket_number.
    + apply Forall_forall. intros s Hs%elem_of_seq. unfold h'. cbn [sets].
      rewrite length_app, length_fmap, HU. lia.
  - rewrite Hcontents, HU. apply one_bucket_file_card; [by apply one_bucket_remove|].
    rewrite Forall_fmap. apply Forall_forall. intros [k X] _. cbn. set_solver.
  - intros k. rewrite !members_contents, Hcontents, HU, bucket_of_file_card.
    rewrite !(bucket_of_fmap (λ X, X ∖ {[c]})). destruct (decide (k = dest)) as [->|].
    + destruct (bucket_of dest _); cbn; [done|set_solver].
    + destruct (bucket_of k _); cbn; [done|set_solver].
Qed.

(** X4: for the three outcomes, [update] keeps what makes a bucket map:
    the map it returns is allocated, its keys are distinct bucket numbers,
    its sets are allocated, and, if each card of [S] was in at most one
    bucket, each card of the new map is in at most one bucket. *)
Theorem update_keeps_bucket_map (h : Heap) (S : loc) (c : Card) (outcome : AnswerDifficulty) :
  BucketMap h S →
  one_bucket_per_card (contents h S) →
  outcome ≠ Unrecognized →
  ∃ (R : loc) (h' : Heap),
    update S c outcome h = (Normal R, h') ∧
    BucketMap h' R ∧
    one_bucket_per_card (contents h' R).
Proof.
  intros HS Hone Hd.
  destruct (update_result h S c outcome HS Hone Hd) as (R & h' & Hrun & HR & Hone' & _).
  by exists R, h'.
Qed.

(** ** Answers that leave the buckets as they are *)

Lemma bucket_of_Some k X bs : bucket_of k bs = Some X → (k, X) ∈ bs.
Proof.
  induction bs as [|[k' Y] bs IH]; cbn; [done|]. case_decide.
  - intros [= ->]. subst. left.
  - right. auto.
Qed.

(** Filing the card back under the key that the search found restores
    the buckets. *)
Lemma file_card_remove_first card cur0 bs :
  NoDup bs.*1 →
  (∃ b, b ∈ bs ∧ card ∈ b.2) →
  (remove_first card cur0 bs).1 ∈ bs.*1 ∧
  file_card card (remove_first card cur0 bs).1 (remove_first card cur0 bs).2 = bs.
Proof.
  induction bs as [|[k X] bs IH]; cbn; intros Hnd (b & Hb & Hc).
  - by apply elem_of_nil in Hb.
  - apply NoDup_cons in Hnd as [Hk Hnd]. destruct (decide (card ∈ X)) as [HX|HX]; cbn.
    + split; [left|]. rewrite decide_True by done. f_equal. f_equal.
      rewrite difference_union_L, (comm_L (∪)). apply subseteq_union_1_L.
      by apply singleton_subseteq_l.
    + apply elem_of_cons in Hb as [->|Hb]; [done|].
      destruct IH as [Hin IH]; [done|by exists b|]. split; [by right|].
      rewrite decide_False; [by rewrite IH|]. intros ->. by apply Hk.
Qed.

Lemma members_found h S c k :
  c ∈ members h S k → ∃ b, b ∈ contents h S ∧ c ∈ b.2.
Proof.
  rewrite members_contents. destruct (bucket_of k _) as [X|] eqn:HX; cbn; [|set_solver].
  intros Hc. exists (k, X). split; [by apply bucket_of_Some|done].
Qed.

(** X5: a Hard answer for a card that is in a bucket changes nothing: the
    map that [update] returns has the keys of [S] in the same order, with
    the same cards. *)
Theorem update_hard_keeps_contents (h : Heap) (S : loc) (c : Card) (k : key) :
  BucketMap h S →
  c ∈ members h S k →
  ∃ (R : loc) (h' : Heap),
    update S c Hard h = (Normal R, h') ∧ contents h' R = contents h S.
Proof.
  intros HS Hc. eexists _, _. split; [by apply update_run|].
  destruct HS as (_ & Hnd & Hks & _).
  unfold contents at 1. cbn [sets maps].
  rewrite list_lookup_total_middle, contents_new by done. unfold updated.
  destruct (file_card_remove_first c (bucket (-1)) (contents h S)) as [Hin Hfile].
  { by rewrite contents_keys. }
  { by eapply members_found. }
  rewrite contents_keys in Hin. rewrite Forall_forall in Hks.
  apply Hks, is_bucket_number_inv in Hin as (n & Hn & Hpos).
  cbn [destination]. rewrite decide_False; [done|]. rewrite Hn. intros [= ?]. lia.
Qed.

(** X6: Wrong is idempotent: a second Wrong answer for the same card
    returns a map with the same keys and the same cards as the first. *)
Theorem update_wrong_twice (h : Heap) (S : loc) (c : Card) :
  BucketMap h S →
  one_bucket_per_card (contents h S) →
  ∃ (R1 : loc) (h1 : Heap) (R2 : loc) (h2 : Heap),
    update S c Wrong h = (Normal R1, h1) ∧
    update R1 c Wrong h1 = (Normal R2, h2) ∧
    contents h2 R2 = contents h1 R1.
Proof.
  intros HS Hone.
  destruct (update_result h S c Wrong HS Hone) as (R1 & h1 & Hrun1 & HR1 & Hone1 & Hmem & _);
    [done|].
  exists R1, h1. eexists _, _. split; [done|]. split; [by apply update_run|].
  unfold contents at 1. cbn [sets maps].
  rewrite list_lookup_total_middle, contents_new by done. unfold updated.
  destruct HR1 as (_ & Hnd & _ & _).
  assert (Hc : c ∈ members h1 R1 (bucket 0)).
  { rewrite Hmem. cbn. rewrite decide_True by done. set_solver. }
  destruct (file_card_remove_first c (bucket (-1)) (contents h1 R1)) as [_ Hfile].
  { by rewrite contents_keys. }
  { by eapply members_found. }
  assert ((remove_first c (bucket (-1)) (contents h1 R1)).1 = bucket 0) as Hcur.
  { unfold contents. rewrite remove_first_current.
    apply first_bucket_members in Hc; [|done..]. by rewrite Hc. }
  cbn [destination]. by rewrite Hcur in Hfile.
Qed.

(** ** From an answer to the next practice *)

(** X7: after an answer, the card is due on exactly one day, the number
    of its new bucket: on a map whose keys are below 2^32 - 2, so that the
    map after the answer still has an array, for the three outcomes and
    every day [>= 0], [practice (toBucketSets (update S c outcome)) day]
    holds [c] exactly when [day] is 0 for Wrong, the number of the bucket
    [c] was in for Hard, that number plus one for Easy, and 0 for a card
    that was in no bucket. *)
Theorem answered_card_is_due (h : Heap) (S : loc) (c : Card) (outcome : AnswerDifficulty)
    (day : Z) :
  BucketMap h S →
  one_bucket_per_card (contents h S) →
  keys_below 4294967294 h S →
  outcome ≠ Unrecognized →
  0 ≤ day →
  ∃ (R : loc) (h1 : Heap) (arr : BucketArray) (h2 : Heap) (result : loc) (h3 : Heap),
    update S c outcome h = (Normal R, h1) ∧
    toBucketSets R h1 = (Normal arr, h2) ∧
    practice arr day h2 = (result, h3) ∧
    (c ∈ sets h3 !!! result ↔
     day = destination_number outcome (key_number <$> first_bucket h (maps h !!! S) c)).
Proof.
  intros HS Hone Hbelow Hd Hday.
  destruct (update_result h S c outcome HS Hone Hd)
    as (R & h1 & Hrun & HR & _ & Hmem & Hcontents).
  cbn zeta in Hmem, Hcontents.
  pose proof (first_bucket_below _ h S c Hbelow) as Hprior.
  assert (Hks : from_option is_bucket_number True (first_bucket h (maps h !!! S) c)).
  { destruct (first_bucket _ _ _) as [k|] eqn:Hfirst; cbn; [|done].
    destruct HS as (_ & _ & Hks & _).
    eapply Forall_forall in Hks; [exact Hks|]. by eapply first_bucket_key. }
  assert (Hdest :
    destination outcome (default (bucket (-1)) (first_bucket h (maps h !!! S) c)) =
    bucket (destination_number outcome (key_number <$> first_bucket h (maps h !!! S) c))).
  { apply destination_bucket; [done|done|].
    destruct (first_bucket _ _ _); cbn in *; [lia|done]. }
  rewrite Hdest in Hmem, Hcontents.
  assert (HbelowR : keys_below 4294967295 h1 R).
  { eapply keys_below_updated; [exact Hcontents| |].
    - eapply keys_below_mono; [|exact Hbelow]. lia.
    - cbn. apply (destination_number_bounds _ _ 4294967294); [lia|].
      by destruct (first_bucket _ _ _). }
  destruct (practice_dense_run h1 R day HR HbelowR Hday)
    as (arr & h2 & result & h3 & Hdense & Hpr & Hdue).
  exists R, h1, arr, h2, result, h3. split; [done|]. split; [done|]. split; [done|].
  rewrite Hdue, Hmem. case_decide as Hk.
  - injection Hk as ->. split; [done|]. intros _. apply elem_of_union_r, elem_of_singleton_2. done.
  - split; [|by intros ->]. intros [_ Hne]%elem_of_difference. destruct Hne.
    by apply elem_of_singleton_2.
Qed.

(** ** toBucketSets and the heap *)

(** X8: where it returns an array, for keys below 2^32 - 1,
    [toBucketSets] changes no object: the maps of the heap and the sets
    that were there stay as they are; it only allocates new sets, all
    empty, one for each index of the array it returns. *)
Theorem toBucketSets_only_allocates (h : Heap) (S : loc) :
  BucketMap h S →
  keys_below 4294967295 h S →
  ∃ (arr : BucketArray) (h' : Heap),
    toBucketSets S h = (Normal arr, h') ∧
    maps h' = maps h ∧
    sets h' = sets h ++ replicate (length arr) ∅.
Proof.
  intros HS Hbelow. destruct (decide (maps h !!! S = [])) as [Hnil|Hne].
  - exists [], h. split; [unfold toBucketSets; run; by rewrite Hnil|].
    split; [done|]. cbn. by rewrite app_nil_r.
  - destruct (toBucketSets_run h S HS Hbelow Hne) as (m & arr & Hrun & _ & _ & Hlen & _).
    eexists arr, _. split; [exact Hrun|]. cbn [sets maps]. by rewrite Hlen.
Qed.

(** X9: the array that [toBucketSets] returns for keys below 2^32 - 1
    shares its sets with the map: a card added to the array's entry at a
    key of [S] is thereby added to the bucket that [S] holds under that
    key. *)
Theorem toBucketSets_shares_sets (h : Heap) (S : loc) (n : Z) (s : loc) (c : Card) :
  BucketMap h S →
  keys_below 4294967295 h S →
  (bucket n, s) ∈ maps h !!! S →
  ∃ (arr : BucketArray) (h1 : Heap) (entry : loc),
    toBucketSets S h = (Normal arr, h1) ∧
    Array_get arr n = Some entry ∧
    members (Set_add entry c h1).2 S (bucket n) = members h S (bucket n) ∪ {[c]}.
Proof.
  intros HS Hbelow Hin.
  assert (Hne : maps h !!! S ≠ []) by (intros Hnil; rewrite Hnil in Hin; by apply elem_of_nil in Hin).
  destruct (toBucketSets_run h S HS Hbelow Hne) as (m & arr & Hrun & _ & Hle & Hlen & Hget & _).
  destruct HS as (_ & Hnd & _ & Hss).
  assert (Hn : 0 ≤ n ≤ m).
  { apply Hle, list_elem_of_fmap. by exists (bucket n, s). }
  assert (Hs : (s < length (sets h))%nat).
  { rewrite Forall_forall in Hss. apply Hss, list_elem_of_fmap. by exists (bucket n, s). }
  apply entries_get_Some in Hin; [|done].
  eexists arr, _, s. split; [exact Hrun|]. split.
  - unfold Array_get. rewrite bool_decide_true by lia. rewrite Hget by lia.
    by rewrite Z2Nat.id, Hin by lia.
  - rewrite Set_add_run. unfold members. cbn [fst snd sets maps]. rewrite Hin. cbn.
    rewrite list_lookup_total_insert_eq by (rewrite length_app; lia).
    by rewrite lookup_total_app_l.
Qed.

(** [Math.max] of arguments with an [undefined] among them is [NaN]. *)
Lemma Math_max_undefined ks : KUndefined ∈ ks → Math_max ks = NaN.
Proof.
  induction ks as [|k ks IH]; [by intros ?%elem_of_nil|].
  change (Math_max (k :: ks)) with (number_max (ToNumber k) (Math_max ks)).
  intros [<-|Hin]%elem_of_cons; [done|]. rewrite IH by done. by destruct (ToNumber k).
Qed.

(** X10: the map that [update] returns for an unrecognized outcome can
    not be turned into an array: its key [undefined] makes the largest
    key [NaN], and [toBucketSets] throws a [RangeError], changing
    nothing. *)
Theorem toBucketSets_after_unrecognized_outcome (h : Heap) (S : loc) (c : Card) :
  BucketMap h S →
  ∃ (R : loc) (h' : Heap),
    update S c Unrecognized h = (Normal R, h') ∧
    toBucketSets R h' = (Throw RangeError, h').
Proof.
  intros HS. eexists _, _. split; [by apply update_run|].
  set (U := updated c Unrecognized (contents h S)).
  assert (HU : KUndefined ∈ U.*1).
  { unfold U, updated. cbn [destination]. rewrite file_card_keys.
    apply elem_of_app. case_decide; [by left|right; left]. }
  unfold toBucketSets. run. rewrite list_lookup_total_middle by done.
  rewrite length_zip_with, length_seq, length_fmap, Nat.min_id.
  destruct (Z.eqb_spec (Z.of_nat (length U)) 0) as [Hlen|_].
  { destruct U; [by apply elem_of_nil in HU|cbn in Hlen; lia]. }
  run. rewrite list_lookup_total_middle by done.
  rewrite fst_zip by (rewrite length_seq, length_fmap; lia).
  by rewrite Math_max_undefined.
Qed.

(** X18: a bucket map with a key of 2^32 - 1 or more has no array:
    [new Array(maxBucket + 1)] throws a [RangeError], and [toBucketSets]
    changes nothing. *)
Theorem toBucketSets_beyond_array_limit (h : Heap) (S : loc) (n : Z) :
  BucketMap h S →
  bucket n ∈ (maps h !!! S).*1 →
  4294967295 ≤ n →
  toBucketSets S h = (Throw RangeError, h).
Proof.
  intros (Halloc & Hnd & Hks & Hss) Hin Hn.
  destruct (Math_max_bucket_numbers (maps h !!! S).*1) as (m & Hmax & _ & Hle); [|done|].
  { intros Hnil. rewrite Hnil in Hin. by apply elem_of_nil in Hin. }
  specialize (Hle _ Hin). unfold toBucketSets. run.
  destruct (Z.eqb_spec (Z.of_nat (length (maps h !!! S))) 0) as [Hz|_].
  { destruct (maps h !!! S); [by apply elem_of_nil in Hin|cbn in Hz; lia]. }
  run. rewrite Hmax. cbv zeta.
  assert (4294967296 ≤ double_add m 1) by (apply round_to_double_lower; lia).
  destruct (Z.ltb_spec (double_add m 1) 0); [lia|].
  destruct (Z.ltb_spec 4294967295 (double_add m 1)); [done|lia].
Qed.

(** ** The statistics *)

(** The first loop of [computeProgress] counts the cards whatever buckets
    the search finds for them. *)
Lemma count_loop_total h es : ∀ (suf : list (key * loc)) (total : Z) (sum : number Z),
  ∃ sum' : number Z,
    for_fold suf.*2
      (λ cardSet '(totalCards, totalBucketSum),
         let* n := Set_size cardSet in
         let* cards := Set_members cardSet in
         let* totalBucketSum :=
           for_fold (elements cards)
             (λ card totalBucketSum,
                for_break es
                  (λ '(bucketNum, set) totalBucketSum,
                     let* found := Set_has set card in
                     if found then
                       ret (number_add totalBucketSum (ToNumber bucketNum), true)
                     else ret (totalBucketSum, false))
                  totalBucketSum)
             totalBucketSum in
         ret (totalCards + n, totalBucketSum))
      (total, sum) h =
    ((total + total_cards ((λ e, (e.1, sets h !!! e.2)) <$> suf), sum'), h).
Proof.
  induction suf as [|[k s] suf IH]; intros total sum;
    cbn [fmap list_fmap for_fold total_cards foldr fst snd].
  - exists sum. rewrite ret_run. by rewrite Z.add_0_r.
  - run. rewrite (for_fold_read _ (λ card sum,
      from_option (λ k, number_add sum (ToNumber k)) sum (first_bucket h es card))).
    2:{ intros card sum'. apply find_bucket_loop. }
    cbn [fst snd]. fold (total_cards ((λ e, (e.1, sets h !!! e.2)) <$> suf)).
    edestruct IH as [sum' ->]. exists sum'. by rewrite Z.add_assoc.
Qed.

(** The three counts of [computeProgress] on any bucket map, also one
    that files a card in several buckets. *)
Lemma computeProgress_counts h S history :
  BucketMap h S →
  ∃ average : number Q,
    computeProgress S history h =
      ({| totalCards := total_cards (contents h S);
          masteredCards := mastered_cards (contents h S);
          strugglingCards := Z.of_nat (size (members h S (bucket 0)));
          averageBucket := average |}, h).
Proof.
  intros (_ & _ & Hks & _). unfold computeProgress, contents, members.
  rewrite bind_run, Map_entries_run. cbn [fst snd].
  destruct (count_loop_total h (maps h !!! S) (maps h !!! S) 0 (Num 0)) as [sum Hcount].
  rewrite bind_run, Hcount. cbn [fst snd].
  rewrite bind_run, (mastered_loop h _ 0 Hks). run. rewrite !Z.add_0_l.
  eexists. destruct (entries_get _ _) as [s|]; run; cbn [or_zero from_option].
  - by destruct (Z.eqb_spec (Z.of_nat (size (sets h !!! s))) 0) as [->|].
  - by rewrite size_empty.
Qed.

Lemma total_cards_nonneg bs : 0 ≤ total_cards bs.
Proof. induction bs as [|[k X] bs IH]; cbn; [done|]. fold (total_cards bs). lia. Qed.

Lemma mastered_cards_bounds bs : 0 ≤ mastered_cards bs ≤ total_cards bs.
Proof.
  induction bs as [|[k X] bs IH]; cbn; [done|].
  fold (mastered_cards bs) (total_cards bs). case_decide; lia.
Qed.

Lemma mastered_and_struggling bs :
  mastered_cards bs + Z.of_nat (size (default ∅ (bucket_of (bucket 0) bs))) ≤ total_cards bs.
Proof.
  induction bs as [|[k X] bs IH]; cbn.
  - by rewrite size_empty.
  - fold (mastered_cards bs) (total_cards bs). pose proof (mastered_cards_bounds bs).
    destruct (decide (k = bucket 0)) as [->|Hk]; cbn.
    + rewrite decide_False by lia. lia.
    + case_decide; lia.
Qed.

(** X11: the counts of [computeProgress] fit together on every bucket map,
    also one that files a card in several buckets: no count is negative,
    and the mastered and the struggling cards together are no more than
    all cards.  The heap stays as it is. *)
Theorem computeProgress_counts_fit (h : Heap) (S : loc) (history : list HistoryEntry) :
  BucketMap h S →
  ∃ p : Progress,
    computeProgress S history h = (p, h) ∧
    0 ≤ masteredCards p ∧ 0 ≤ strugglingCards p ∧
    masteredCards p + strugglingCards p ≤ totalCards p.
Proof.
  intros HS. destruct (computeProgress_counts h S history HS) as [average Hrun].
  eexists. split; [exact Hrun|]. cbn [masteredCards strugglingCards totalCards].
  split; [apply mastered_cards_bounds|]. split; [lia|].
  rewrite members_contents. apply mastered_and_struggling.
Qed.

Lemma first_bucket_None h es c :
  Forall (λ e : key * loc, c ∉ sets h !!! e.2) es → first_bucket h es c = None.
Proof.
  induction es as [|[k s] es IH]; cbn; [done|]. intros [Hs Hes]%Forall_cons.
  rewrite decide_False by done. by apply IH.
Qed.

Lemma total_cards_remove h c es :
  one_bucket_per_card ((λ e, (e.1, sets h !!! e.2)) <$> es) →
  total_cards ((λ b, (b.1, b.2 ∖ {[c]})) <$> ((λ e, (e.1, sets h !!! e.2)) <$> es)) =
  total_cards ((λ e, (e.1, sets h !!! e.2)) <$> es) -
  (if first_bucket h es c is Some _ then 1 else 0).
Proof.
  induction es as [|[k s] es IH]; cbn [fmap list_fmap total_cards foldr first_bucket fst snd];
    [done|].
  intros [Hdisj Hone]. cbn in Hdisj. specialize (IH Hone).
  fold (total_cards ((λ b, (b.1, b.2 ∖ {[c]})) <$> ((λ e, (e.1, sets h !!! e.2)) <$> es))).
  fold (total_cards ((λ e, (e.1, sets h !!! e.2)) <$> es)).
  rewrite IH. destruct (decide (c ∈ sets h !!! s)) as [Hc|Hc].
  - rewrite first_bucket_None.
    2:{ rewrite Forall_fmap in Hdisj. eapply Forall_impl; [exact Hdisj|].
        intros [k' s'] Hd. cbn in *. set_solver. }
    rewrite size_difference by (by apply singleton_subseteq_l). rewrite size_singleton.
    assert (size (sets h !!! s) ≠ 0%nat); [|lia].
    apply size_non_empty_iff. set_solver.
  - rewrite difference_disjoint_L by set_solver. lia.
Qed.

Lemma total_cards_file_card c k bs :
  Forall (λ b, c ∉ b.2) bs →
  total_cards (file_card c k bs) = total_cards bs + 1.
Proof.
  induction bs as [|[k' X] bs IH]; cbn.
  - intros _. by rewrite union_empty_l_L, size_singleton.
  - intros [HX Hbs]%Forall_cons. cbn in HX. case_decide; cbn.
    + fold (total_cards bs). rewrite size_union by set_solver. rewrite size_singleton. lia.
    + fold (total_cards (file_card c k bs)) (total_cards bs). rewrite IH by done. lia.
Qed.

(** X12: an answer neither loses nor doubles a card: for the three
    outcomes, [computeProgress] counts after [update] as many cards as
    before if the card was in a bucket, and one more if it was in none. *)
Theorem update_keeps_total (h : Heap) (S : loc) (c : Card) (outcome : AnswerDifficulty)
    (history history' : list HistoryEntry) :
  BucketMap h S →
  one_bucket_per_card (contents h S) →
  outcome ≠ Unrecognized →
  ∃ (R : loc) (h' : Heap) (p p' : Progress),
    update S c outcome h = (Normal R, h') ∧
    computeProgress S history h = (p, h) ∧
    computeProgress R history' h' = (p', h') ∧
    totalCards p' =
      totalCards p + (if first_bucket h (maps h !!! S) c is Some _ then 0 else 1).
Proof.
  intros HS Hone Hd.
  destruct (update_result h S c outcome HS Hone Hd)
    as (R & h' & Hrun & HR & _ & _ & Hcontents).
  destruct (computeProgress_counts h S history HS) as [avg Hp].
  destruct (computeProgress_counts h' R history' HR) as [avg' Hp'].
  eexists R, h', _, _. split; [done|]. split; [exact Hp|]. split; [exact Hp'|].
  cbn [totalCards]. rewrite Hcontents, total_cards_file_card.
  - unfold contents in *. rewrite total_cards_remove by done.
    destruct (first_bucket _ _ _); lia.
  - rewrite Forall_fmap. apply Forall_forall. intros [k X] _. cbn. set_solver.
Qed.

(** The range of the array of a bucket map. *)
Lemma dense_range_run h S :
  BucketMap h S →
  keys_below 4294967295 h S →
  ∃ (arr : BucketArray) (h' : Heap),
    toBucketSets S h = (Normal arr, h') ∧
    getBucketRange arr h' = (key_range (occupied_keys h S), h').
Proof.
  intros HS Hbelow. destruct (decide (maps h !!! S = [])) as [Hnil|Hne].
  - exists [], h. split.
    + unfold toBucketSets. run. by rewrite Hnil.
    + rewrite getBucketRange_run. unfold occupied_keys. by rewrite Hnil.
  - destruct (toBucketSets_run h S HS Hbelow Hne)
      as (m & arr & Hrun & Hin & Hle & Hlen & _ & Hmem).
    destruct HS as (_ & Hnd & Hks & _).
    eexists arr, _. split; [exact Hrun|]. rewrite getBucketRange_run. f_equal.
    apply key_range_occupied. intros x. fold (occupied {|
      sets := sets h ++ replicate (Z.to_nat (m + 1)) ∅; maps := maps h |} arr).
    rewrite elem_of_occupied_keys by done. split.
    + intros Hx. exists (Z.to_nat x).
      assert (0 ≤ x).
      { unfold members in Hx. destruct (entries_get _ _) as [s|] eqn:Hs; [|done].
        apply entries_get_Some in Hs; [|done]. apply (Hle x), list_elem_of_fmap.
        by exists (bucket x, s). }
      split; [lia|]. apply elem_of_occupied. rewrite Hmem. by rewrite Z2Nat.id by lia.
    + intros (i & -> & Hi). apply elem_of_occupied in Hi. by rewrite Hmem in Hi.
Qed.

(** The statistics of a bucket map that keeps each card in one bucket. *)
Lemma computeProgress_run h S history :
  BucketMap h S →
  one_bucket_per_card (contents h S) →
  bucket_number_sum (contents h S) ≤ 9007199254740992 →
  computeProgress S history h =
    ({| totalCards := total_cards (contents h S);
        masteredCards := mastered_cards (contents h S);
        strugglingCards := Z.of_nat (size (members h S (bucket 0)));
        averageBucket :=
          if decide (0 < total_cards (contents h S)) then
            Num (double_div (bucket_number_sum (contents h S))
                            (total_cards (contents h S)))
          else Num 0%Q |}, h).
Proof.
  intros (_ & _ & Hks & _) Hone Hbound. unfold computeProgress, contents in *.
  rewrite bind_run, Map_entries_run. cbn [fst snd].
  rewrite bind_run, (count_loop h (maps h !!! S) (maps h !!! S) 0 0 Hks); [| |done|done].
  2:{ intros k s c. by apply first_bucket_own. }
  cbn [fst snd]. rewrite bind_run, (mastered_loop h _ 0 Hks). run.
  rewrite !Z.add_0_l. unfold members.
  set (total := total_cards _). set (sum := bucket_number_sum _).
  assert (Havg : (if 0 <? total then number_div (Num sum) total else Num 0%Q) =
                 if decide (0 < total) then Num (double_div sum total) else Num 0%Q).
  { destruct (Z.ltb_spec 0 total); [by rewrite decide_True|by rewrite decide_False by lia]. }
  rewrite Havg. destruct (entries_get _ _) as [s|]; run; cbn [or_zero from_option].
  - by destruct (Z.eqb_spec (Z.of_nat (size (sets h !!! s))) 0) as [->|].
  - by rewrite size_empty.
Qed.

Lemma bucket_number_sum_bounds (lo hi : Z) bs :
  Forall (λ b, b.2 ≠ ∅ → lo ≤ key_number b.1 ≤ hi) bs →
  lo * total_cards bs ≤ bucket_number_sum bs ≤ hi * total_cards bs.
Proof.
  induction bs as [|[k X] bs IH]; cbn; [lia|]. intros [HX Hbs]%Forall_cons.
  fold (total_cards bs) (bucket_number_sum bs). specialize (IH Hbs). cbn in HX.
  destruct (decide (X = ∅)) as [->|Hne].
  - rewrite size_empty. lia.
  - specialize (HX Hne). nia.
Qed.

Lemma total_cards_pos k X bs : (k, X) ∈ bs → X ≠ ∅ → 0 < total_cards bs.
Proof.
  induction bs as [|[k' Y] bs IH]; cbn; [by intros ?%elem_of_nil|].
  fold (total_cards bs). pose proof (total_cards_nonneg bs).
  intros [[= <- <-]|Hin]%elem_of_cons HX.
  - assert (size X ≠ 0%nat); [|lia]. by rewrite size_non_empty_iff, leibniz_equiv_iff.
  - specialize (IH Hin HX). lia.
Qed.

(** X13: the average lies within the range: on a map whose keys are
    below 2^32 - 1 and whose bucket numbers sum, over the cards, to at
    most 2^53, when [getBucketRange (toBucketSets S)] is a range,
    [computeProgress S] reports an [averageBucket] that is a number
    between [minBucket] and [maxBucket]. *)
Theorem averageBucket_within_range (h : Heap) (S : loc) (history : list HistoryEntry) :
  BucketMap h S →
  one_bucket_per_card (contents h S) →
  keys_below 4294967295 h S →
  bucket_number_sum (contents h S) ≤ 9007199254740992 →
  ∃ (arr : BucketArray) (h1 : Heap) (p : Progress),
    toBucketSets S h = (Normal arr, h1) ∧
    computeProgress S history h = (p, h) ∧
    ∀ r : BucketRange,
      getBucketRange arr h1 = (Some r, h1) →
      ∃ q : Q,
        averageBucket p = Num q ∧
        (inject_Z (minBucket r) <= q)%Q ∧ (q <= inject_Z (maxBucket r))%Q.
Proof.
  intros HS Hone Hbelow Hsum.
  destruct (dense_range_run h S HS Hbelow) as (arr & h1 & Hdense & Hrange).
  exists arr, h1. eexists. split; [done|]. split; [by apply computeProgress_run|].
  intros r Hr. rewrite Hrange in Hr. injection Hr as Hr. cbn [averageBucket].
  destruct HS as (_ & Hnd & Hks & _).
  destruct (occupied_keys h S) as [|x xs] eqn:Hocc; [done|].
  injection Hr as <-. cbn [minBucket maxBucket].
  destruct (foldr_min_spec x xs) as [_ Hmin]. destruct (foldr_max_spec x xs) as [_ Hmax].
  set (lo := foldr Z.min x xs) in *. set (hi := foldr Z.max x xs) in *.
  assert (Hbounds : Forall (λ b, b.2 ≠ ∅ → lo ≤ key_number b.1 ≤ hi) (contents h S)).
  { unfold contents. rewrite Forall_fmap. apply Forall_forall. intros [k s] Hin. cbn.
    intros Hne.
    assert (is_bucket_number k) as (n & -> & _)%is_bucket_number_inv.
    { rewrite Forall_forall in Hks. apply Hks, list_elem_of_fmap. by exists (k, s). }
    assert (n ∈ x :: xs) as Hn.
    { rewrite <-Hocc. apply elem_of_occupied_keys; [done|]. unfold members.
      apply entries_get_Some in Hin; [|done]. by rewrite Hin. }
    cbn. split; [by apply Hmin|by apply Hmax]. }
  apply bucket_number_sum_bounds in Hbounds.
  assert (Hpos : 0 < total_cards (contents h S)).
  { assert (x ∈ occupied_keys h S) as Hx by (rewrite Hocc; left).
    apply elem_of_occupied_keys in Hx; [|done]. rewrite members_contents in Hx.
    destruct (bucket_of (bucket x) _) as [X|] eqn:HX; [|done].
    eapply total_cards_pos; [by apply bucket_of_Some|done]. }
  rewrite decide_True by done. eexists. split; [done|].
  assert (0 ≤ lo).
  { destruct (foldr_min_spec x xs) as [Hlo _]. fold lo in Hlo. rewrite <-Hocc in Hlo.
    apply elem_of_occupied_keys in Hlo; [|done]. unfold members in Hlo.
    destruct (entries_get _ _) as [s|] eqn:Hs; [|done].
    apply entries_get_Some in Hs; [|done].
    assert (is_bucket_number (bucket lo)) as Hnum; [|done].
    rewrite Forall_forall in Hks. apply Hks, list_elem_of_fmap. by eexists (_, s). }
  apply double_div_bounds; [|done|done|lia].
  split; [|done]. apply bucket_number_sum_nonneg. by rewrite contents_keys.
Qed.

(** ** Answers for two cards *)

(** An answer for one card leaves every other card in its bucket, so the
    search finds the same bucket for it afterwards. *)
Lemma first_bucket_other_card h S c outcome c' :
  BucketMap h S →
  one_bucket_per_card (contents h S) →
  outcome ≠ Unrecognized →
  c' ≠ c →
  ∀ R h', update S c outcome h = (Normal R, h') →
    first_bucket h' (maps h' !!! R) c' = first_bucket h (maps h !!! S) c'.
Proof.
  intros HS Hone Hd Hne R h' Hrun.
  destruct (update_result h S c outcome HS Hone Hd) as (R0 & h0 & Hrun0 & HR & Hone' & Hmem & _).
  rewrite Hrun in Hrun0. injection Hrun0 as <- <-.
  apply option_eq. intros k.
  rewrite first_bucket_members by (done || apply HR).
  rewrite first_bucket_members by (done || apply HS).
  rewrite Hmem. cbn zeta. case_decide.
  - rewrite elem_of_union, elem_of_difference, elem_of_singleton. naive_solver.
  - rewrite elem_of_difference, elem_of_singleton. naive_solver.
Qed.

(** X14: answers for two different cards commute: for the three outcomes,
    updating for [c1] and then for [c2] files every card under the same
    key as updating for [c2] and then for [c1]. *)
Theorem updates_of_two_cards_commute (h : Heap) (S : loc) (c1 c2 : Card)
    (o1 o2 : AnswerDifficulty) :
  BucketMap h S →
  one_bucket_per_card (contents h S) →
  o1 ≠ Unrecognized → o2 ≠ Unrecognized →
  c1 ≠ c2 →
  ∃ (Ra : loc) (ha : Heap) (Rab : loc) (hab : Heap)
    (Rb : loc) (hb : Heap) (Rba : loc) (hba : Heap),
    update S c1 o1 h = (Normal Ra, ha) ∧
    update Ra c2 o2 ha = (Normal Rab, hab) ∧
    update S c2 o2 h = (Normal Rb, hb) ∧
    update Rb c1 o1 hb = (Normal Rba, hba) ∧
    ∀ k, members hab Rab k = members hba Rba k.
Proof.
  intros HS Hone Ho1 Ho2 Hne.
  destruct (update_result h S c1 o1 HS Hone Ho1) as (Ra & ha & Hruna & HRa & Honea & Hma & _).
  destruct (update_result ha Ra c2 o2 HRa Honea Ho2) as (Rab & hab & Hrunab & _ & _ & Hmab & _).
  destruct (update_result h S c2 o2 HS Hone Ho2) as (Rb & hb & Hrunb & HRb & Honeb & Hmb & _).
  destruct (update_result hb Rb c1 o1 HRb Honeb Ho1) as (Rba & hba & Hrunba & _ & _ & Hmba & _).
  exists Ra, ha, Rab, hab, Rb, hb, Rba, hba. do 4 (split; [done|]).
  rewrite (first_bucket_other_card h S c1 o1 c2 HS Hone Ho1) in Hmab by done.
  rewrite (first_bucket_other_card h S c2 o2 c1 HS Hone Ho2) in Hmba by done.
  cbn zeta in *. intros k. rewrite Hmab, Hmba, Hma, Hmb.
  set (M := members h S k). clearbody M. clear -Hne.
  apply set_eq. intros x.
  repeat case_decide;
    rewrite ?elem_of_union, ?elem_of_difference, ?elem_of_union, ?elem_of_difference,
      ?elem_of_singleton;
    naive_solver.
Qed.

(** ** What an answer shows in the range and the statistics *)

(** X15: after a Wrong answer the occupied range starts at bucket 0: on
    a map whose keys are below 2^32 - 1, [getBucketRange (toBucketSets
    (update S c Wrong))] is a range whose [minBucket] is 0. *)
Theorem wrong_answer_range_starts_at_0 (h : Heap) (S : loc) (c : Card) :
  BucketMap h S →
  one_bucket_per_card (contents h S) →
  keys_below 4294967295 h S →
  ∃ (R : loc) (h1 : Heap) (arr : BucketArray) (h2 : Heap) (r : BucketRange),
    update S c Wrong h = (Normal R, h1) ∧
    toBucketSets R h1 = (Normal arr, h2) ∧
    getBucketRange arr h2 = (Some r, h2) ∧
    minBucket r = 0.
Proof.
  intros HS Hone Hbelow.
  destruct (update_result h S c Wrong HS Hone)
    as (R & h1 & Hrun & HR & _ & Hmem & Hcontents); [done|].
  cbn zeta in Hmem, Hcontents. cbn [destination] in Hmem, Hcontents.
  assert (HbelowR : keys_below 4294967295 h1 R).
  { eapply keys_below_updated; [exact Hcontents|exact Hbelow|]. cbn. lia. }
  destruct (dense_range_run h1 R HR HbelowR) as (arr & h2 & Hdense & Hrange).
  destruct HR as (_ & Hnd & Hks & _).
  assert (H0 : 0 ∈ occupied_keys h1 R).
  { apply elem_of_occupied_keys; [done|]. rewrite Hmem. cbn. rewrite decide_True by done.
    intros Hempty. assert (c ∈ (∅ : gset Card)); [|set_solver].
    rewrite <-Hempty. apply elem_of_union_r. by apply elem_of_singleton_2. }
  destruct (occupied_keys h1 R) as [|x xs] eqn:Hocc; [by apply elem_of_nil in H0|].
  exists R, h1, arr, h2. eexists. split; [done|]. split; [done|]. split; [exact Hrange|].
  cbn [minBucket]. destruct (foldr_min_spec x xs) as [Hin Hle]. specialize (Hle _ H0).
  rewrite <-Hocc in Hin. apply elem_of_occupied_keys in Hin; [|done].
  unfold members in Hin. destruct (entries_get _ _) as [s|] eqn:Hs; [|done].
  apply entries_get_Some in Hs; [|done].
  assert (is_bucket_number (bucket (foldr Z.min x xs))) as Hpos.
  { rewrite Forall_forall in Hks. apply Hks, list_elem_of_fmap. by eexists (_, s). }
  cbn in Hpos. lia.
Qed.

(** X16: after a Wrong answer the card counts as struggling:
    [computeProgress] on the map of [update S c Wrong] reports at least
    one struggling card. *)
Theorem wrong_answer_is_struggling (h : Heap) (S : loc) (c : Card)
    (history : list HistoryEntry) :
  BucketMap h S →
  one_bucket_per_card (contents h S) →
  ∃ (R : loc) (h' : Heap) (p : Progress),
    update S c Wrong h = (Normal R, h') ∧
    computeProgress R history h' = (p, h') ∧
    1 ≤ strugglingCards p.
Proof.
  intros HS Hone.
  destruct (update_result h S c Wrong HS Hone) as (R & h' & Hrun & HR & _ & Hmem & _); [done|].
  destruct (computeProgress_counts h' R history HR) as [avg Hp].
  exists R, h'. eexists. split; [done|]. split; [exact Hp|]. cbn [strugglingCards].
  assert (size (members h' R (bucket 0)) ≠ 0%nat); [|lia].
  rewrite size_non_empty_iff, leibniz_equiv_iff, Hmem. cbn. rewrite decide_True by done.
  intros Hempty. assert (c ∈ (∅ : gset Card)); [|set_solver].
  rewrite <-Hempty. apply elem_of_union_r. by apply elem_of_singleton_2.
Qed.

Lemma mastered_cards_bucket k X bs :
  bucket_of k bs = Some X → 2 ≤ key_number k → Z.of_nat (size X) ≤ mastered_cards bs.
Proof.
  induction bs as [|[k' Y] bs IH]; cbn; [done|]. fold (mastered_cards bs).
  pose proof (mastered_cards_bounds bs). case_decide as Hk.
  - intros [= ->] Hge. subst. rewrite decide_True by done. lia.
  - intros HX Hge. specialize (IH HX Hge). case_decide; lia.
Qed.

(** X17: an Easy answer for a card in bucket 1 or higher makes it count as
    mastered: [computeProgress] on the map of [update S c Easy] reports at
    least one mastered card. *)
Theorem easy_answer_is_mastered (h : Heap) (S : loc) (c : Card) (n : Z)
    (history : list HistoryEntry) :
  BucketMap h S →
  one_bucket_per_card (contents h S) →
  c ∈ members h S (bucket n) →
  1 ≤ n →
  ∃ (R : loc) (h' : Heap) (p : Progress),
    update S c Easy h = (Normal R, h') ∧
    computeProgress R history h' = (p, h') ∧
    1 ≤ masteredCards p.
Proof.
  intros HS Hone Hc Hn.
  destruct (update_result h S c Easy HS Hone) as (R & h' & Hrun & HR & _ & Hmem & _); [done|].
  destruct (computeProgress_counts h' R history HR) as [avg Hp].
  exists R, h'. eexists. split; [done|]. split; [exact Hp|]. cbn [masteredCards].
  apply first_bucket_members in Hc; [|apply HS|done]. rewrite Hc in Hmem.
  cbn zeta in Hmem. cbn [default from_option destination] in Hmem.
  rewrite decide_False in Hmem by (intros [= ?]; lia).
  cbn [ToNumber bucket number_add] in Hmem.
  assert (Hdest : 2 ≤ double_add n 1) by (apply round_to_double_lower; lia).
  set (dest := KNum (Num (double_add n 1))) in Hmem.
  specialize (Hmem dest). rewrite decide_True in Hmem by done.
  rewrite members_contents in Hmem.
  destruct (bucket_of dest (contents h' R)) as [X|] eqn:HX; cbn in Hmem.
  - pose proof (mastered_cards_bucket _ _ _ HX Hdest) as Hle.
    assert (size X ≠ 0%nat); [|lia]. rewrite size_non_empty_iff, leibniz_equiv_iff, Hmem.
    intros Hempty. assert (c ∈ (∅ : gset Card)); [|set_solver].
    rewrite <-Hempty. apply elem_of_union_r. by apply elem_of_singleton_2.
  - exfalso. assert (c ∈ (∅ : gset Card)); [|set_solver].
    rewrite Hmem. apply elem_of_union_r. by apply elem_of_singleton_2.
Qed.

(** * The further properties on the test fixtures *)

(** X2 on the two sets of the example, day 1. *)
Lemma practice_result_is_a_copy_witness :
  Forall (λ b, from_option (λ s, (s < length (sets scenario))%nat) True b)
    [Some 0%nat; Some 1%nat] ∧
  Some (practice [Some 0%nat; Some 1%nat] 1 scenario).1 ∉ [Some 0%nat; Some 1%nat].
Proof.
  assert (H : Forall (λ b, from_option (λ s, (s < length (sets scenario))%nat) True b)
                [Some 0%nat; Some 1%nat]).
  { repeat constructor. }
  split; [exact H|].
  exact (proj1 (practice_result_is_a_copy scenario [Some 0%nat; Some 1%nat] 1 cardA H)).
Defined.

(** X3 on the example map, day 1. *)
Lemma practice_of_toBucketSets_witness :
  BucketMap scenario 0 ∧ keys_below 4294967295 scenario 0 ∧ 0 ≤ 1 ∧
  ∃ (arr : BucketArray) (h1 : Heap) (result : loc) (h2 : Heap),
    toBucketSets 0 scenario = (Normal arr, h1) ∧
    practice arr 1 h1 = (result, h2) ∧
    sets h2 !!! result = members scenario 0 (bucket 1).
Proof.
  split; [exact scenario_BucketMap|]. split; [exact scenario_keys_fit_array|].
  split; [lia|].
  apply (practice_of_toBucketSets scenario 0 1 scenario_BucketMap scenario_keys_fit_array).
  lia.
Defined.

(** X4 on the example map, answered Easy. *)
Lemma update_keeps_bucket_map_witness :
  BucketMap scenario 0 ∧ one_bucket_per_card (contents scenario 0) ∧ Easy ≠ Unrecognized ∧
  ∃ (R : loc) (h' : Heap),
    update 0 cardA Easy scenario = (Normal R, h') ∧
    BucketMap h' R ∧ one_bucket_per_card (contents h' R).
Proof.
  split; [exact scenario_BucketMap|]. split; [exact scenario_one_bucket_per_card|].
  split; [discriminate|].
  apply (update_keeps_bucket_map scenario 0 cardA Easy scenario_BucketMap
           scenario_one_bucket_per_card). discriminate.
Defined.

Lemma scenario_cardA_in_bucket_1 : cardA ∈ members scenario 0 (bucket 1).
Proof. compute_done. Defined.

(** X5 on the example map. *)
Lemma update_hard_keeps_contents_witness :
  BucketMap scenario 0 ∧ cardA ∈ members scenario 0 (bucket 1) ∧
  ∃ (R : loc) (h' : Heap),
    update 0 cardA Hard scenario = (Normal R, h') ∧ contents h' R = contents scenario 0.
Proof.
  split; [exact scenario_BucketMap|]. split; [exact scenario_cardA_in_bucket_1|].
  exact (update_hard_keeps_contents scenario 0 cardA (bucket 1) scenario_BucketMap
           scenario_cardA_in_bucket_1).
Defined.

(** X6 on the example map. *)
Lemma update_wrong_twice_witness :
  BucketMap scenario 0 ∧ one_bucket_per_card (contents scenario 0) ∧
  ∃ (R1 : loc) (h1 : Heap) (R2 : loc) (h2 : Heap),
    update 0 cardA Wrong scenario = (Normal R1, h1) ∧
    update R1 cardA Wrong h1 = (Normal R2, h2) ∧
    contents h2 R2 = contents h1 R1.
Proof.
  split; [exact scenario_BucketMap|]. split; [exact scenario_one_bucket_per_card|].
  exact (update_wrong_twice scenario 0 cardA scenario_BucketMap scenario_one_bucket_per_card).
Defined.

(** X7 on the example map: answered Easy, [cardA] is due on day 2. *)
Lemma answered_card_is_due_witness :
  BucketMap scenario 0 ∧ one_bucket_per_card (contents scenario 0) ∧
  keys_below 4294967294 scenario 0 ∧ Easy ≠ Unrecognized ∧ 0 ≤ 2 ∧
  ∃ (R : loc) (h1 : Heap) (arr : BucketArray) (h2 : Heap) (result : loc) (h3 : Heap),
    update 0 cardA Easy scenario = (Normal R, h1) ∧
    toBucketSets R h1 = (Normal arr, h2) ∧
    practice arr 2 h2 = (result, h3) ∧
    cardA ∈ sets h3 !!! result.
Proof.
  split; [exact scenario_BucketMap|]. split; [exact scenario_one_bucket_per_card|].
  split; [exact scenario_keys_below|]. split; [discriminate|]. split; [lia|].
  destruct (answered_card_is_due scenario 0 cardA Easy 2 scenario_BucketMap
              scenario_one_bucket_per_card scenario_keys_below)
    as (R & h1 & arr & h2 & result & h3 & Hrun & Hdense & Hpr & Hdue); [discriminate|lia|].
  exists R, h1, arr, h2, result, h3. split; [exact Hrun|]. split; [exact Hdense|].
  split; [exact Hpr|]. apply Hdue. reflexivity.
Defined.

(** X8 on the example map. *)
Lemma toBucketSets_only_allocates_witness :
  BucketMap scenario 0 ∧ keys_below 4294967295 scenario 0 ∧
  ∃ (arr : BucketArray) (h' : Heap),
    toBucketSets 0 scenario = (Normal arr, h') ∧
    maps h' = maps scenario ∧
    sets h' = sets scenario ++ replicate (length arr) ∅.
Proof.
  split; [exact scenario_BucketMap|]. split; [exact scenario_keys_fit_array|].
  exact (toBucketSets_only_allocates scenario 0 scenario_BucketMap scenario_keys_fit_array).
Defined.

Lemma scenario_bucket_1 : (bucket 1, 1%nat) ∈ maps scenario !!! 0%nat.
Proof. compute_done. Defined.

(** X9 on the example map: a card added to the array's entry 1 is in
    bucket 1 of the map. *)
Lemma toBucketSets_shares_sets_witness :
  BucketMap scenario 0 ∧ keys_below 4294967295 scenario 0 ∧
  (bucket 1, 1%nat) ∈ maps scenario !!! 0%nat ∧
  ∃ (arr : BucketArray) (h1 : Heap) (entry : loc),
    toBucketSets 0 scenario = (Normal arr, h1) ∧
    Array_get arr 1 = Some entry ∧
    members (Set_add entry 9%positive h1).2 0 (bucket 1) =
      members scenario 0 (bucket 1) ∪ {[9%positive]}.
Proof.
  split; [exact scenario_BucketMap|]. split; [exact scenario_keys_fit_array|].
  split; [exact scenario_bucket_1|].
  exact (toBucketSets_shares_sets scenario 0 1 1 9%positive scenario_BucketMap
           scenario_keys_fit_array scenario_bucket_1).
Defined.

(** X10 on the example map. *)
Lemma toBucketSets_after_unrecognized_outcome_witness :
  BucketMap scenario 0 ∧
  ∃ (R : loc) (h' : Heap),
    update 0 cardA Unrecognized scenario = (Normal R, h') ∧
    toBucketSets R h' = (Throw RangeError, h').
Proof.
  split; [exact scenario_BucketMap|].
  exact (toBucketSets_after_unrecognized_outcome scenario 0 cardA scenario_BucketMap).
Defined.

(** X11 on the three cards. *)
Lemma computeProgress_counts_fit_witness :
  BucketMap three_cards 0 ∧
  ∃ p : Progress,
    computeProgress 0 [] three_cards = (p, three_cards) ∧
    0 ≤ masteredCards p ∧ 0 ≤ strugglingCards p ∧
    masteredCards p + strugglingCards p ≤ totalCards p.
Proof.
  split; [exact three_cards_BucketMap|].
  exact (computeProgress_counts_fit three_cards 0 [] three_cards_BucketMap).
Defined.

(** X12 on the example map: [cardA] was in a bucket, the total stays. *)
Lemma update_keeps_total_witness :
  BucketMap scenario 0 ∧ one_bucket_per_card (contents scenario 0) ∧ Wrong ≠ Unrecognized ∧
  ∃ (R : loc) (h' : Heap) (p p' : Progress),
    update 0 cardA Wrong scenario = (Normal R, h') ∧
    computeProgress 0 [] scenario = (p, scenario) ∧
    computeProgress R [] h' = (p', h') ∧
    totalCards p' = totalCards p + 0.
Proof.
  split; [exact scenario_BucketMap|]. split; [exact scenario_one_bucket_per_card|].
  split; [discriminate|].
  apply (update_keeps_total scenario 0 cardA Wrong [] [] scenario_BucketMap
           scenario_one_bucket_per_card). discriminate.
Defined.

(** X13 on the three cards. *)
Lemma averageBucket_within_range_witness :
  BucketMap three_cards 0 ∧ one_bucket_per_card (contents three_cards 0) ∧
  keys_below 4294967295 three_cards 0 ∧
  bucket_number_sum (contents three_cards 0) ≤ 9007199254740992 ∧
  ∃ (arr : BucketArray) (h1 : Heap) (p : Progress),
    toBucketSets 0 three_cards = (Normal arr, h1) ∧
    computeProgress 0 [] three_cards = (p, three_cards) ∧
    ∀ r : BucketRange,
      getBucketRange arr h1 = (Some r, h1) →
      ∃ q : Q,
        averageBucket p = Num q ∧
        (inject_Z (minBucket r) <= q)%Q ∧ (q <= inject_Z (maxBucket r))%Q.
Proof.
  split; [exact three_cards_BucketMap|]. split; [exact three_cards_one_bucket_per_card|].
  split; [exact three_cards_keys_fit_array|]. split; [exact three_cards_sum|].
  exact (averageBucket_within_range three_cards 0 [] three_cards_BucketMap
           three_cards_one_bucket_per_card three_cards_keys_fit_array three_cards_sum).
Defined.

(** X14 on the three cards: Easy for the first, Wrong for the second. *)
Lemma updates_of_two_cards_commute_witness :
  BucketMap three_cards 0 ∧ one_bucket_per_card (contents three_cards 0) ∧
  Easy ≠ Unrecognized ∧ Wrong ≠ Unrecognized ∧ 1%positive ≠ 2%positive ∧
  ∃ (Ra : loc) (ha : Heap) (Rab : loc) (hab : Heap)
    (Rb : loc) (hb : Heap) (Rba : loc) (hba : Heap),
    update 0 1%positive Easy three_cards = (Normal Ra, ha) ∧
    update Ra 2%positive Wrong ha = (Normal Rab, hab) ∧
    update 0 2%positive Wrong three_cards = (Normal Rb, hb) ∧
    update Rb 1%positive Easy hb = (Normal Rba, hba) ∧
    ∀ k, members hab Rab k = members hba Rba k.
Proof.
  split; [exact three_cards_BucketMap|]. split; [exact three_cards_one_bucket_per_card|].
  split; [discriminate|]. split; [discriminate|]. split; [discriminate|].
  apply (updates_of_two_cards_commute three_cards 0 1%positive 2%positive Easy Wrong
           three_cards_BucketMap three_cards_one_bucket_per_card); discriminate.
Defined.

(** X15 on the example map. *)
Lemma wrong_answer_range_starts_at_0_witness :
  BucketMap scenario 0 ∧ one_bucket_per_card (contents scenario 0) ∧
  keys_below 4294967295 scenario 0 ∧
  ∃ (R : loc) (h1 : Heap) (arr : BucketArray) (h2 : Heap) (r : BucketRange),
    update 0 cardA Wrong scenario = (Normal R, h1) ∧
    toBucketSets R h1 = (Normal arr, h2) ∧
    getBucketRange arr h2 = (Some r, h2) ∧
    minBucket r = 0.
Proof.
  split; [exact scenario_BucketMap|]. split; [exact scenario_one_bucket_per_card|].
  split; [exact scenario_keys_fit_array|].
  exact (wrong_answer_range_starts_at_0 scenario 0 cardA scenario_BucketMap
           scenario_one_bucket_per_card scenario_keys_fit_array).
Defined.

(** X16 on the example map. *)
Lemma wrong_answer_is_struggling_witness :
  BucketMap scenario 0 ∧ one_bucket_per_card (contents scenario 0) ∧
  ∃ (R : loc) (h' : Heap) (p : Progress),
    update 0 cardA Wrong scenario = (Normal R, h') ∧
    computeProgress R [] h' = (p, h') ∧
    1 ≤ strugglingCards p.
Proof.
  split; [exact scenario_BucketMap|]. split; [exact scenario_one_bucket_per_card|].
  exact (wrong_answer_is_struggling scenario 0 cardA [] scenario_BucketMap
           scenario_one_bucket_per_card).
Defined.

(** X17 on the example map: [cardA] goes from bucket 1 to bucket 2. *)
Lemma easy_answer_is_mastered_witness :
  BucketMap scenario 0 ∧ one_bucket_per_card (contents scenario 0) ∧
  cardA ∈ members scenario 0 (bucket 1) ∧ 1 ≤ 1 ∧
  ∃ (R : loc) (h' : Heap) (p : Progress),
    update 0 cardA Easy scenario = (Normal R, h') ∧
    computeProgress R [] h' = (p, h') ∧
    1 ≤ masteredCards p.
Proof.
  split; [exact scenario_BucketMap|]. split; [exact scenario_one_bucket_per_card|].
  split; [exact scenario_cardA_in_bucket_1|]. split; [lia|].
  apply (easy_answer_is_mastered scenario 0 cardA 1 [] scenario_BucketMap
           scenario_one_bucket_per_card scenario_cardA_in_bucket_1). lia.
Defined.

(** X18 on the map [{4294967295: {cardA}}]. *)
Lemma toBucketSets_beyond_array_limit_witness :
  BucketMap beyond_array 0 ∧
  bucket 4294967295 ∈ (maps beyond_array !!! 0%nat).*1 ∧
  4294967295 ≤ 4294967295 ∧
  toBucketSets 0 beyond_array = (Throw RangeError, beyond_array).
Proof.
  assert (Hin : bucket 4294967295 ∈ (maps beyond_array !!! 0%nat).*1) by compute_done.
  assert (Hn : 4294967295 ≤ 4294967295) by lia.
  split; [exact beyond_array_BucketMap|]. split; [exact Hin|]. split; [exact Hn|].
  exact (toBucketSets_beyond_array_limit beyond_array 0 4294967295 beyond_array_BucketMap
           Hin Hn).
Defined.
